(** * Substance: object operations and the stub hub

    A shallow embedding of [ObjectOperation] (the structural operations of
    the document model, their inversion and their pairwise transformation)
    and of [StubHub] with [ServerWebSocket] (the hub used for local testing),
    followed by the properties established about them.

    JavaScript objects are records whose absent fields hold [JUndefined]
    (or [None] for the fields that hold objects), exceptions are the [Throw]
    branch of [result], and in-place mutation of the two operands of a
    transformation is rendered by returning the mutated pair. *)

From Stdlib Require Import ZArith String Ascii List Lia.
From stdpp Require Import base option list gmap strings.

Set Default Proof Using "Type".

(** ** JavaScript values *)

#[warnings="-register-all"]
Inductive JSON : Type :=
| JUndefined
| JNull
| JBool (b : bool)
| JNum (n : Z)
| JStr (s : string)
| JArr (items : list JSON)
| JObj (fields : gmap string JSON).

(** The truth value JavaScript gives to a value in [if (v)] and [!v]. *)
Definition truthy (v : JSON) : bool :=
  match v with
  | JUndefined | JNull => false
  | JBool b => b
  | JNum n => negb (n =? 0)%Z
  | JStr s => negb (String.eqb s "")
  | JArr _ | JObj _ => true
  end.

(** [lodash/cloneDeep]: values are immutable here, so the deep copy of a
    value is that value. *)
Definition cloneDeep (v : JSON) : JSON := v.

(** A path is the array of property names leading to a value. *)
Abbreviation Path := (list string).

(** ** Exceptions *)

Inductive result (E A : Type) : Type :=
| Ok (a : A)
| Throw (e : E).
Arguments Ok {E A} a.
Arguments Throw {E A} e.

#[global] Instance result_ret {E} : MRet (result E) := fun _ a => Ok a.
#[global] Instance result_bind {E} : MBind (result E) :=
  fun _ _ f m => match m with Ok a => f a | Throw e => Throw e end.

(** ** The leaf operations *)

(** The options object of a transformation, [{ inplace, 'no-conflict' }];
    a missing entry is false. *)
Record Options : Type := { inplace : bool; no_conflict : bool }.

(** [TextOperation] and [ArrayOperation] live in files of their own; the
    object operation only calls them, and they are parameters here.  Their
    objects form the type [leaf], which also stands for the JSON they are
    rebuilt from: the transformation rules hand [fromJSON] the operation
    object itself.  A call that throws answers [None]. *)
Class LeafOT : Type := {
  leaf : Type;
  _isTextOperation : leaf -> bool;
  _isArrayOperation : leaf -> bool;
  (* methods of an operation object *)
  leaf_apply : leaf -> JSON -> option JSON;
  leaf_invert : leaf -> leaf;
  leaf_clone : leaf -> leaf;
  leaf_isNOP : leaf -> bool;
  leaf_toJSON : leaf -> leaf;
  (* static functions of the two modules *)
  TextOperation_fromJSON : leaf -> option leaf;
  ArrayOperation_fromJSON : leaf -> option leaf;
  TextOperation_transform : leaf -> leaf -> Options -> option (leaf * leaf);
  ArrayOperation_transform : leaf -> leaf -> Options -> option (leaf * leaf)
}.

(** What the object operations rely on from the leaves: a clone and an
    object read back by its own module are the operation itself, a NOP
    applies as the identity, and the two transformations converge (TP1) on
    operations of their own kind. *)
Class LeafLaws (L : LeafOT) : Prop := {
  clone_same : forall d : leaf, leaf_clone d = d;
  text_fromJSON_same :
    forall d : leaf, _isTextOperation d = true -> TextOperation_fromJSON d = Some d;
  array_fromJSON_same :
    forall d : leaf, _isArrayOperation d = true -> ArrayOperation_fromJSON d = Some d;
  NOP_apply :
    forall (d : leaf) v, leaf_isNOP d = true -> leaf_apply d v = Some v;
  text_TP1 :
    forall (x y x' y' : leaf) options v vx vy,
      _isTextOperation x = true -> _isTextOperation y = true ->
      TextOperation_transform x y options = Some (x', y') ->
      leaf_apply x v = Some vx -> leaf_apply y v = Some vy ->
      exists w, leaf_apply x' vy = Some w /\ leaf_apply y' vx = Some w;
  array_TP1 :
    forall (x y x' y' : leaf) options v vx vy,
      _isArrayOperation x = true -> _isArrayOperation y = true ->
      ArrayOperation_transform x y options = Some (x', y') ->
      leaf_apply x v = Some vx -> leaf_apply y v = Some vy ->
      exists w, leaf_apply x' vy = Some w /\ leaf_apply y' vx = Some w
}.

(** ** The document adapter *)

Module DataObject.

(** Modelled from the spec: [DataObject] is not among the sources.  The
    adapter wraps the document, a JavaScript object, and exposes
    [get(path) -> value|undefined], [set(path, value)] and
    [delete(path, "strict")], the latter failing when the path is absent.
    A path is followed from the document down: every name but the last has
    to lead to an object, and the last names a property of that object.  A
    property set to [undefined] is present and holds [JUndefined]. *)
Abbreviation t := JSON.

(** Modelled from the spec: what is found by following [path] from [o];
    [None] stands for nothing being there. *)
Fixpoint entry (o : option JSON) (path : Path) : option JSON :=
  match path with
  | [] => o
  | key :: rest =>
    match o with
    | Some (JObj fields) => entry (fields !! key) rest
    | _ => None
    end
  end.

(** Modelled from the spec: [obj !! path] is the value stored under
    [path], if there is one; [get] answers [undefined] otherwise. *)
#[global] Instance lookup_path : Lookup Path JSON t :=
  fun path obj => entry (Some obj) path.

(** Modelled from the spec: [o] with what is found under [path] replaced
    by [r].  The objects on the way have to be there: nothing is stored
    below a name that is absent or that holds no object. *)
Fixpoint store (r : option JSON) (path : Path) (o : option JSON)
  : option (option JSON) :=
  match path with
  | [] => Some r
  | key :: rest =>
    match o with
    | Some (JObj fields) =>
      r' ← store r rest (fields !! key);
      Some (Some (JObj (partial_alter (fun _ => r') key fields)))
    | _ => None
    end
  end.

(** Modelled from the spec: the document with the entry under [path]
    replaced by [r].  A path has one name at least; the empty path names
    no property. *)
Definition put (r : option JSON) (path : Path) (obj : t) : option t :=
  match path with
  | [] => None
  | _ => mjoin (store r path (Some obj))
  end.

(** Modelled from the spec: [get(path) -> value|undefined]. *)
Definition get (obj : t) (path : Path) : JSON :=
  default JUndefined (obj !! path).

(** Modelled from the spec: [set(path, value)]; it fails when the path
    leads through something that is no object. *)
Definition set (obj : t) (path : Path) (value : JSON) : option t :=
  put (Some value) path obj.

(** Modelled from the spec: [delete(path, "strict")], which fails if the
    path is absent. *)
Definition delete_strict (obj : t) (path : Path) : option t :=
  match obj !! path with
  | Some _ => put None path obj
  | None => None
  end.

(** Neither path leads through the other. *)
Definition apart (p q : Path) : Prop :=
  ~ p `prefix_of` q /\ ~ q `prefix_of` p.

End DataObject.

(** ** ObjectOperation *)

Module ObjectOperation.

Inductive OpType : Type := NOP | CREATE | DELETE | UPDATE | SET.

#[global] Instance OpType_eq_dec : EqDecision OpType.
Proof. solve_decision. Defined.

Inductive PropertyType : Type := PString | PArray.

#[global] Instance PropertyType_eq_dec : EqDecision PropertyType.
Proof. solve_decision. Defined.

Section Definitions.

Context {L : LeafOT}.

(** The fields an operation object can have.  Which of them are filled
    depends on [type]; the others read as [undefined]. *)
Record ObjectOperation : Type := mkOp {
  type : OpType;
  path : option Path;
  val : JSON;
  diff : option leaf;
  propertyType : option PropertyType;
  original : JSON
}.

Inductive Exn : Type :=
| Error (msg : string)
| Conflict (a b : ObjectOperation).

Definition lift {A} (msg : string) (o : option A) : result Exn A :=
  match o with
  | Some a => Ok a
  | None => Throw (Error msg)
  end.

(** Field assignments, [o.f = x]. *)
Definition set_type (t : OpType) (o : ObjectOperation) : ObjectOperation :=
  mkOp t (path o) (val o) (diff o) (propertyType o) (original o).
Definition set_val (v : JSON) (o : ObjectOperation) : ObjectOperation :=
  mkOp (type o) (path o) v (diff o) (propertyType o) (original o).
Definition set_diff (d : leaf) (o : ObjectOperation) : ObjectOperation :=
  mkOp (type o) (path o) (val o) (Some d) (propertyType o) (original o).
Definition set_original (v : JSON) (o : ObjectOperation) : ObjectOperation :=
  mkOp (type o) (path o) (val o) (diff o) (propertyType o) v.

(** An object with [type] alone. *)
Definition blank (t : OpType) : ObjectOperation :=
  mkOp t None JUndefined None None JUndefined.

(** The constructor, [new ObjectOperation(data)], on an object whose
    [type] is one of the five tags; [construct] below is the constructor
    on any argument. *)
Definition new (data : ObjectOperation) : result Exn ObjectOperation :=
  match type data with
  | NOP => Ok (blank NOP)
  | t =>
    match path data with
    | None => Throw (Error "Invalid data: path is mandatory.")
    | Some p =>
      let this := mkOp t (Some p) JUndefined None None JUndefined in
      match t with
      | CREATE | DELETE =>
        if truthy (val data) then Ok (set_val (val data) this)
        else Throw (Error "Invalid data: value is missing.")
      | UPDATE =>
        match diff data with
        | Some d =>
          if _isTextOperation d then
            Ok (mkOp t (Some p) JUndefined (Some d) (Some PString) JUndefined)
          else if _isArrayOperation d then
            Ok (mkOp t (Some p) JUndefined (Some d) (Some PArray) JUndefined)
          else Throw (Error "Invalid data: diff must be a TextOperation or an ArrayOperation.")
        | None => Throw (Error "Invalid data: diff is mandatory for update operation.")
        end
      | _ => Ok (set_original (original data) (set_val (val data) this))
      end
    end
  end.

(** The argument of the constructor as JavaScript hands it over: [type]
    can be any value, and the other fields are as above. *)
Record Data : Type := mkData {
  data_type : JSON;
  data_path : option Path;
  data_val : JSON;
  data_diff : option leaf;
  data_original : JSON
}.

(** The five tags, [NOP = "NOP"], [CREATE = "create"] and so on; [===]
    holds of these strings only. *)
Definition tag_of (v : JSON) : option OpType :=
  match v with
  | JStr s =>
    if String.eqb s "NOP" then Some NOP
    else if String.eqb s "create" then Some CREATE
    else if String.eqb s "delete" then Some DELETE
    else if String.eqb s "update" then Some UPDATE
    else if String.eqb s "set" then Some SET
    else None
  | _ => None
  end.

(** The text of [type] in the message of the last [throw]; it is the
    string itself for a string, and is left out for other values. *)
Definition type_text (v : JSON) : string :=
  match v with
  | JStr s => s
  | _ => ""
  end.

(** The constructor on any argument: [None] is an argument that is false
    in a condition.  A [type] that is false in a condition and a [type]
    that is none of the five tags are rejected, the latter in the last
    [else] of the constructor, after the check of the path; for the five
    tags the constructor goes on as [new] says. *)
Definition construct (data : option Data) : result Exn ObjectOperation :=
  match data with
  | None => Throw (Error "Data of ObjectOperation is missing.")
  | Some data =>
    if truthy (data_type data) then
      match tag_of (data_type data) with
      | Some t =>
        new (mkOp t (data_path data) (data_val data) (data_diff data) None
                  (data_original data))
      | None =>
        match data_path data with
        | None => Throw (Error "Invalid data: path is mandatory.")
        | Some _ =>
          Throw (Error (String.append "Invalid type: " (type_text (data_type data))))
        end
      end
    else Throw (Error "Invalid data: type is mandatory.")
  end.

(** An operation is well formed when it is what the constructor builds. *)
Definition wf (o : ObjectOperation) : Prop := new o = Ok o.

(** The path handed to the adapter; the adapter is never reached with an
    undefined path by an operation the constructor built. *)
Definition the_path (this : ObjectOperation) : result Exn Path :=
  lift "path is undefined" (path this).

Definition apply (this : ObjectOperation) (obj : DataObject.t)
  : result Exn DataObject.t :=
  match type this with
  | NOP => Ok obj
  | CREATE =>
    p ← the_path this;
    lift "adapter.set" (DataObject.set obj p (cloneDeep (val this)))
  | DELETE =>
    p ← the_path this;
    lift "strict delete of an absent path" (DataObject.delete_strict obj p)
  | UPDATE =>
    d ← lift "diff is undefined" (diff this);
    p ← the_path this;
    let oldVal := DataObject.get obj p in
    newVal ← lift "diff.apply" (leaf_apply d oldVal);
    lift "adapter.set" (DataObject.set obj p newVal)
  | SET =>
    p ← the_path this;
    lift "adapter.set" (DataObject.set obj p (cloneDeep (val this)))
  end.

Definition clone (this : ObjectOperation) : result Exn ObjectOperation :=
  let data :=
    mkOp (type this) (path this)
         (if truthy (val this) then cloneDeep (val this) else JUndefined)
         (leaf_clone <$> diff this)
         None JUndefined in
  new data.

(** [isNOP] answers [true], the answer of the diff, or nothing at all
    ([undefined], which is false in a condition). *)
Definition isNOP (this : ObjectOperation) : result Exn bool :=
  match type this with
  | NOP => Ok true
  | UPDATE =>
    d ← lift "diff is undefined" (diff this);
    Ok (leaf_isNOP d)
  | _ => Ok false
  end.

Definition isCreate (this : ObjectOperation) : bool := bool_decide (type this = CREATE).
Definition isDelete (this : ObjectOperation) : bool := bool_decide (type this = DELETE).
Definition isSet (this : ObjectOperation) : bool := bool_decide (type this = SET).

Definition isUpdate (this : ObjectOperation) (propertyType' : option PropertyType) : bool :=
  match propertyType' with
  | Some pt =>
    bool_decide (type this = UPDATE) && bool_decide (propertyType this = Some pt)
  | None => bool_decide (type this = UPDATE)
  end.

Definition invert (this : ObjectOperation) : result Exn ObjectOperation :=
  match type this with
  | NOP => new (blank NOP)
  | t =>
    r ← new this;
    match t with
    | CREATE => Ok (set_type DELETE r)
    | DELETE => Ok (set_type CREATE r)
    | UPDATE =>
      d ← lift "diff is undefined" (diff this);
      op ← lift "fromJSON"
           (if _isTextOperation d then TextOperation_fromJSON (leaf_toJSON d)
            else ArrayOperation_fromJSON (leaf_toJSON d));
      Ok (set_diff (leaf_invert op) r)
    | _ => Ok (set_original (val this) (set_val (original this) r))
    end
  end.

(** [toJSON]: the data of the operation, as an object with the same
    fields. *)
Definition toJSON (this : ObjectOperation) : result Exn ObjectOperation :=
  match type this with
  | NOP => Ok (blank NOP)
  | CREATE | DELETE =>
    Ok (mkOp (type this) (path this) (val this) None None JUndefined)
  | UPDATE =>
    d ← lift "diff is undefined" (diff this);
    Ok (mkOp (type this) (path this) JUndefined (Some (leaf_toJSON d))
             (Some (if _isArrayOperation d then PArray else PString)) JUndefined)
  | SET =>
    Ok (mkOp (type this) (path this) (val this) None None (original this))
  end.

(** [ObjectOperation.fromJSON(data)]. *)
Definition fromJSON (data : ObjectOperation) : result Exn ObjectOperation :=
  match type data with
  | UPDATE =>
    match propertyType data with
    | Some PString =>
      d ← lift "fromJSON of undefined" (diff data);
      d' ← lift "fromJSON" (TextOperation_fromJSON d);
      new (set_diff d' data)
    | Some PArray =>
      d ← lift "fromJSON of undefined" (diff data);
      d' ← lift "fromJSON" (ArrayOperation_fromJSON d);
      new (set_diff d' data)
    | None => Throw (Error "Unsupported update diff:")
    end
  | _ => new data
  end.

(** [lodash/isEqual] on two paths (either of which may be undefined). *)
Definition isEqual (p q : option Path) : bool := bool_decide (p = q).

(** *** Low level implementation *)

Definition hasConflict (a b : ObjectOperation) : bool :=
  if bool_decide (type a = NOP) || bool_decide (type b = NOP) then false
  else isEqual (path a) (path b).

Abbreviation pair_result := (result Exn (ObjectOperation * ObjectOperation)).

Definition transform_delete_delete (a b : ObjectOperation) : pair_result :=
  Ok (set_type NOP a, set_type NOP b).

Definition transform_create_create (a b : ObjectOperation) : pair_result :=
  Throw (Error "Can not transform two concurring creates of the same property").

Definition transform_delete_create (a b : ObjectOperation) : pair_result :=
  Throw (Error "Illegal state: can not create and delete a value at the same time.").

(** The statements of [transform_delete_update] once [a] is the delete. *)
Definition delete_update_body (a b : ObjectOperation) (flipped : bool)
  : pair_result :=
  d ← lift "fromJSON of undefined" (diff b);
  op ← lift "fromJSON"
       (if bool_decide (propertyType b = Some PString)
        then TextOperation_fromJSON d else ArrayOperation_fromJSON d);
  if negb flipped then
    v ← lift "op.apply" (leaf_apply op (val a));
    Ok (set_type NOP a, set_val v (set_type CREATE b))
  else
    v ← lift "op.apply" (leaf_apply op (val a));
    Ok (set_val v a, set_type NOP b).

(** [transform_delete_update(a, b, flipped)]: when [a] is not the delete
    the function calls itself on [(b, a, true)]; the operands it mutates
    are the caller's, so the pair comes back in the caller's order.  With
    no delete on either side the two calls alternate until the stack is
    exhausted. *)
Definition transform_delete_update (a b : ObjectOperation) (flipped : bool)
  : pair_result :=
  if bool_decide (type a ≠ DELETE) then
    if bool_decide (type b ≠ DELETE) then
      Throw (Error "Maximum call stack size exceeded")
    else
      '(b', a') ← delete_update_body b a true;
      Ok (a', b')
  else delete_update_body a b flipped.

Definition transform_create_update (a b : ObjectOperation) : pair_result :=
  Throw (Error "Can not transform a concurring create and update of the same property").

Definition transform_update_update (a b : ObjectOperation) : pair_result :=
  da ← lift "fromJSON of undefined" (diff a);
  db ← lift "fromJSON of undefined" (diff b);
  '(t0, t1) ← (if bool_decide (propertyType b = Some PString) then
         op_a ← lift "fromJSON" (TextOperation_fromJSON da);
         op_b ← lift "fromJSON" (TextOperation_fromJSON db);
         lift "TextOperation.transform"
              (TextOperation_transform op_a op_b {| inplace := true; no_conflict := false |})
       else
         op_a ← lift "fromJSON" (ArrayOperation_fromJSON da);
         op_b ← lift "fromJSON" (ArrayOperation_fromJSON db);
         lift "ArrayOperation.transform"
              (ArrayOperation_transform op_a op_b {| inplace := true; no_conflict := false |}));
  Ok (set_diff t0 a, set_diff t1 b).

Definition transform_create_set (a b : ObjectOperation) : pair_result :=
  Throw (Error "Illegal state: can not create and set a value at the same time.").

(** The statements of [transform_delete_set] once [a] is the delete. *)
Definition delete_set_body (a b : ObjectOperation) (flipped : bool)
  : pair_result :=
  if negb flipped then
    Ok (set_type NOP a, set_original JUndefined (set_type CREATE b))
  else
    Ok (set_val (val b) a, set_type NOP b).

(** [transform_delete_set(a, b, flipped)], with the same self call on the
    swapped operands as [transform_delete_update]. *)
Definition transform_delete_set (a b : ObjectOperation) (flipped : bool)
  : pair_result :=
  if bool_decide (type a ≠ DELETE) then
    if bool_decide (type b ≠ DELETE) then
      Throw (Error "Maximum call stack size exceeded")
    else
      '(b', a') ← delete_set_body b a true;
      Ok (a', b')
  else delete_set_body a b flipped.

Definition transform_update_set (a b : ObjectOperation) : pair_result :=
  Throw (Error "Unresolvable conflict: update + set.").

Definition transform_set_set (a b : ObjectOperation) : pair_result :=
  Ok (set_type NOP a, set_original (val a) b).

Definition _NOP : Z := 0.
Definition _CREATE : Z := 1.
Definition _DELETE : Z := 2.
Definition _UPDATE : Z := 4.
Definition _SET : Z := 8.

Definition CODE (t : OpType) : Z :=
  match t with
  | NOP => _NOP
  | CREATE => _CREATE
  | DELETE => _DELETE
  | UPDATE => _UPDATE
  | SET => _SET
  end.

(** The table of rules, indexed by the bitwise or of the two codes.  The
    rules are called with two arguments, so [flipped] starts out false. *)
Definition __transform__ (i : Z)
  : option (ObjectOperation -> ObjectOperation -> pair_result) :=
  if (i =? Z.lor _DELETE _DELETE)%Z then Some transform_delete_delete
  else if (i =? Z.lor _DELETE _CREATE)%Z then Some transform_delete_create
  else if (i =? Z.lor _DELETE _UPDATE)%Z then
    Some (fun a b => transform_delete_update a b false)
  else if (i =? Z.lor _CREATE _CREATE)%Z then Some transform_create_create
  else if (i =? Z.lor _CREATE _UPDATE)%Z then Some transform_create_update
  else if (i =? Z.lor _UPDATE _UPDATE)%Z then Some transform_update_update
  else if (i =? Z.lor _CREATE _SET)%Z then Some transform_create_set
  else if (i =? Z.lor _DELETE _SET)%Z then
    Some (fun a b => transform_delete_set a b false)
  else if (i =? Z.lor _UPDATE _SET)%Z then Some transform_update_set
  else if (i =? Z.lor _SET _SET)%Z then Some transform_set_set
  else None.

Definition default_options : Options :=
  {| inplace := false; no_conflict := false |}.

Definition transform (a b : ObjectOperation) (options : Options) : pair_result :=
  if no_conflict options && hasConflict a b then Throw (Conflict a b)
  else
    '(a, b) ← (if negb (inplace options) then
                 a' ← clone a; b' ← clone b; Ok (a', b')
               else Ok (a, b));
    na ← isNOP a;
    nb ← (if (na : bool) then Ok true else isNOP b);
    if (nb : bool) then Ok (a, b)
    else
      let sameProp := isEqual (path a) (path b) in
      if sameProp then
        match __transform__ (Z.lor (CODE (type a)) (CODE (type b))) with
        | Some rule => rule a b
        | None => Throw (Error "__transform__[...] is not a function")
        end
      else Ok (a, b).

(** [only_Error r]: if [r] is an exception, it is a plain [Error]. *)
Definition only_Error {A} (r : result Exn A) : Prop :=
  forall x y, r <> Throw (Conflict x y).

(** The pair of diffs that rule U-U is described to produce: the one of
    [TextOperation.transform] when [text] holds and the one of
    [ArrayOperation.transform] otherwise, on the two diffs read back by
    that module's [fromJSON] and with [inplace] set. *)
Definition leaf_transform_by (text : bool) (da db : leaf) : option (leaf * leaf) :=
  if text then
    op_a ← TextOperation_fromJSON da;
    op_b ← TextOperation_fromJSON db;
    TextOperation_transform op_a op_b {| inplace := true; no_conflict := false |}
  else
    op_a ← ArrayOperation_fromJSON da;
    op_b ← ArrayOperation_fromJSON db;
    ArrayOperation_transform op_a op_b {| inplace := true; no_conflict := false |}.

(** *** Vocabulary of the statements *)

(** The diff [d], applied to [v], can be undone: read back from its JSON
    and inverted, it takes the result to [v] again. *)
Definition leaf_invertible (d : leaf) (v : JSON) : Prop :=
  forall w, leaf_apply d v = Some w ->
  exists op,
    (if _isTextOperation d then TextOperation_fromJSON (leaf_toJSON d)
     else ArrayOperation_fromJSON (leaf_toJSON d)) = Some op /\
    leaf_apply (leaf_invert op) w = Some v.

(** [recorded_against o s]: [s] is a state the operation was recorded
    against.  A create finds its path free, a delete holds the value that
    is stored, a set holds it as [original], and an update finds a value
    on which its diff can be undone. *)
Definition recorded_against (o : ObjectOperation) (s : DataObject.t) : Prop :=
  match type o, path o with
  | NOP, _ => True
  | CREATE, Some p => s !! p = None
  | DELETE, Some p => s !! p = Some (val o)
  | UPDATE, Some p =>
    exists d v, diff o = Some d /\ s !! p = Some v /\ leaf_invertible d v
  | SET, Some p => s !! p = Some (original o)
  | _, None => False
  end.

(** A delete holds the value that [s] stores under its path. *)
Definition deletes_what_is_there (o : ObjectOperation) (s : DataObject.t) : Prop :=
  type o = DELETE -> forall p, path o = Some p -> s !! p = Some (val o).

(** An update whose diff is a leaf NOP. *)
Definition idle (o : ObjectOperation) : Prop :=
  type o = UPDATE /\ exists d, diff o = Some d /\ leaf_isNOP d = true.

(** Two operations of one path fit together when a delete does not meet
    an idle update. *)
Definition fit (a b : ObjectOperation) : Prop :=
  path a = path b ->
  (type a = DELETE -> ~ idle b) /\
  (type b = DELETE -> ~ idle a).

(** The paths of two operations are equal, or neither leads through the
    other. *)
Definition paths_fit (a b : ObjectOperation) : Prop :=
  forall p q, path a = Some p -> path b = Some q ->
  p = q \/ DataObject.apart p q.

(** Each leaf module reads back operations of its own kind only: its
    [fromJSON] raises on an operation of the other kind. *)
Definition own_kind_only : Prop :=
  forall d : leaf,
    (_isArrayOperation d = true -> TextOperation_fromJSON d = None) /\
    (_isTextOperation d = true -> ArrayOperation_fromJSON d = None).

(** The [val] of a set that [clone] carries over. *)
Definition survives_clone (o : ObjectOperation) : Prop :=
  type o = SET -> truthy (val o) = true \/ val o = JUndefined.

(** What [apply] makes of the entry [old] found under the path of the
    operation; [apply] is [DataObject.put] of this (lemma [apply_Ok]). *)
Definition effect (o : ObjectOperation) (old : option JSON) : result Exn (option JSON) :=
  match type o with
  | NOP => Ok old
  | CREATE | SET => Ok (Some (val o))
  | DELETE =>
    match old with
    | Some _ => Ok None
    | None => Throw (Error "strict delete of an absent path")
    end
  | UPDATE =>
    d ← lift "diff is undefined" (diff o);
    w ← lift "diff.apply" (leaf_apply d (default JUndefined old));
    Ok (Some w)
  end.

(** The answer of [isNOP] on an operation that has its diff. *)
Definition idleb (o : ObjectOperation) : bool :=
  match type o, diff o with
  | NOP, _ => true
  | UPDATE, Some d => leaf_isNOP d
  | _, _ => false
  end.

(** *** Factories *)

(** The first argument of [Create] and [Delete] is an id or a path; an id
    stands for the path of length one. *)
Definition path_of (idOrPath : string + Path) : Path :=
  match idOrPath with
  | inl id => [id]
  | inr path => path
  end.

Definition Create (idOrPath : string + Path) (val : JSON) : result Exn ObjectOperation :=
  new (mkOp CREATE (Some (path_of idOrPath)) val None None JUndefined).

Definition Delete (idOrPath : string + Path) (val : JSON) : result Exn ObjectOperation :=
  new (mkOp DELETE (Some (path_of idOrPath)) val None None JUndefined).

Definition Update (path : Path) (op : leaf) : result Exn ObjectOperation :=
  if _isTextOperation op || _isArrayOperation op then
    new (mkOp UPDATE (Some path) JUndefined (Some op) None JUndefined)
  else Throw (Error "Unsupported type for operational changes").

Definition Set_ (path : Path) (oldVal newVal : JSON) : result Exn ObjectOperation :=
  new (mkOp SET (Some path) (cloneDeep newVal) None None (cloneDeep oldVal)).

End Definitions.

Arguments ObjectOperation : clear implicits.
Arguments ObjectOperation {L}.

End ObjectOperation.

(** ** A text and an array operation to run the object operations on *)

Module Leaves.

(** Modelled from the spec: [TextOperation] and [ArrayOperation] are not
    among the sources.  The spec describes them as insertions and deletions
    at an offset of a character sequence, respectively at an index of a
    sequence of values, with [apply], [invert], [clone], [isNOP],
    [toJSON]/[fromJSON] and a pairwise [transform].  The examples below need
    no more than this: an insertion is transformed against an insertion by
    shifting the later one (the earlier one is [a] on a tie), a NOP against
    anything is left alone, and a pair that involves a deletion raises.
    Each operation carries the discriminant of its variant, and [fromJSON]
    of either module reads back the operations of its own variant and
    raises on the others. *)
Inductive op : Type :=
| TNop
| TInsert (pos : nat) (str : string)
| TDelete (pos : nat) (str : string)
| ANop
| AInsert (pos : nat) (val : JSON)
| ADelete (pos : nat) (val : JSON).

(** Modelled from the spec: the discriminant of a leaf operation. *)
Definition isText (o : op) : bool :=
  match o with TNop | TInsert _ _ | TDelete _ _ => true | _ => false end.

(** Modelled from the spec: the discriminant, for the array operations. *)
Definition isArray (o : op) : bool := negb (isText o).

(** Modelled from the spec: insertion of [x] at an offset of [l], checked
    against the length. *)
Definition insert_at {A} (pos : nat) (x l : list A) : option (list A) :=
  if bool_decide (pos ≤ length l) then Some (take pos l ++ x ++ drop pos l)
  else None.

(** Modelled from the spec: deletion of [n] elements at an offset of [l],
    checked against the length. *)
Definition delete_at {A} (pos n : nat) (l : list A) : option (list A) :=
  if bool_decide (pos + n ≤ length l) then Some (take pos l ++ drop (pos + n) l)
  else None.

(** Modelled from the spec: a text operation applies to a string. *)
Definition on_text (f : list ascii -> option (list ascii)) (v : JSON) : option JSON :=
  match v with
  | JStr s => (fun l => JStr (string_of_list_ascii l)) <$> f (list_ascii_of_string s)
  | _ => None
  end.

(** Modelled from the spec: an array operation applies to an array. *)
Definition on_array (f : list JSON -> option (list JSON)) (v : JSON) : option JSON :=
  match v with
  | JArr l => JArr <$> f l
  | _ => None
  end.

(** Modelled from the spec: [apply(value) -> value]; a NOP hands the value
    back. *)
Definition apply (o : op) (v : JSON) : option JSON :=
  match o with
  | TNop | ANop => Some v
  | TInsert pos str => on_text (insert_at pos (list_ascii_of_string str)) v
  | TDelete pos str => on_text (delete_at pos (String.length str)) v
  | AInsert pos x => on_array (insert_at pos [x]) v
  | ADelete pos x => on_array (delete_at pos 1) v
  end.

(** Modelled from the spec: [invert() -> op], an insertion for a deletion
    and back. *)
Definition invert (o : op) : op :=
  match o with
  | TNop => TNop
  | TInsert pos str => TDelete pos str
  | TDelete pos str => TInsert pos str
  | ANop => ANop
  | AInsert pos x => ADelete pos x
  | ADelete pos x => AInsert pos x
  end.

(** Modelled from the spec: [isNOP() -> bool]. *)
Definition isNOP (o : op) : bool :=
  match o with TNop | ANop => true | _ => false end.

(** Modelled from the spec: [TextOperation.fromJSON]. *)
Definition text_fromJSON (data : op) : option op :=
  match data with
  | TNop | TInsert _ _ | TDelete _ _ => Some data
  | ANop | AInsert _ _ | ADelete _ _ => None
  end.

(** Modelled from the spec: [ArrayOperation.fromJSON]. *)
Definition array_fromJSON (data : op) : option op :=
  match data with
  | ANop | AInsert _ _ | ADelete _ _ => Some data
  | TNop | TInsert _ _ | TDelete _ _ => None
  end.

(** Modelled from the spec: [TextOperation.transform(a, b, {inplace})]. *)
Definition text_transform (a b : op) (options : Options) : option (op * op) :=
  match a, b with
  | TNop, (TNop | TInsert _ _ | TDelete _ _) => Some (a, b)
  | (TInsert _ _ | TDelete _ _), TNop => Some (a, b)
  | TInsert pa sa, TInsert pb sb =>
    if bool_decide (pa ≤ pb) then Some (a, TInsert (pb + String.length sa) sb)
    else Some (TInsert (pa + String.length sb) sa, b)
  | _, _ => None
  end.

(** Modelled from the spec: [ArrayOperation.transform(a, b, {inplace})]. *)
Definition array_transform (a b : op) (options : Options) : option (op * op) :=
  match a, b with
  | ANop, (ANop | AInsert _ _ | ADelete _ _) => Some (a, b)
  | (AInsert _ _ | ADelete _ _), ANop => Some (a, b)
  | AInsert pa xa, AInsert pb xb =>
    if bool_decide (pa ≤ pb) then Some (a, AInsert (pb + 1) xb)
    else Some (AInsert (pa + 1) xa, b)
  | _, _ => None
  end.

(** Modelled from the spec: the two leaf modules together; [clone] and
    [toJSON] give the operation itself. *)
Definition leaves : LeafOT := {|
  leaf := op;
  _isTextOperation := isText;
  _isArrayOperation := isArray;
  leaf_apply := apply;
  leaf_invert := invert;
  leaf_clone := fun o => o;
  leaf_isNOP := isNOP;
  leaf_toJSON := fun o => o;
  TextOperation_fromJSON := text_fromJSON;
  ArrayOperation_fromJSON := array_fromJSON;
  TextOperation_transform := text_transform;
  ArrayOperation_transform := array_transform
|}.

End Leaves.

(** ** ServerWebSocket and StubHub *)

Module Hub.

(** [String.prototype.replace] with a string pattern: the first occurrence
    of [pat] in [s] is replaced by [rep]. *)
Fixpoint replace (s pat rep : string) : string :=
  if String.prefix pat s then
    (rep ++ String.substring (String.length pat) (String.length s - String.length pat) s)%string
  else
    match s with
    | EmptyString => EmptyString
    | String c s' => String c (replace s' pat rep)
    end.

(** A server side socket; [__id__] is drawn from a counter, so two sockets
    are the same object exactly when their [__id__] agree. *)
Record ServerWebSocket : Type := {
  clientId : string;
  __id__ : nat
}.

(** [new ServerWebSocket(messageQueue, clientId)], with the counter before
    and after. *)
Definition ServerWebSocket_new (counter : nat) (clientId : string)
  : ServerWebSocket * nat :=
  ({| clientId := clientId; __id__ := counter |}, S counter).

Section StubHub.

(** The document and the changes are those of the document model:
    [doc._apply(change)], [change.clone()] and
    [DocumentChange.transformInplace(A, B)], which mutates both of its
    arguments, are taken as they come. *)
Context {Doc Change : Type}.
Variable doc_apply : Doc -> Change -> option Doc.
Variable change_clone : Change -> Change.
Variable transformInplace : Change -> Change -> option (Change * Change).

(** What the elements of a message array can be. *)
Inductive Item : Type :=
| IStr (s : string)
| INum (n : Z)
| IChange (c : Change)
| IChanges (cs : list Change).

Record Message : Type := {
  msg_from : string;
  msg_to : string;
  msg_data : list Item
}.

Record StubHub : Type := mkHub {
  doc : Doc;
  doc_id : string;
  doc_version : Z;
  changes : list Change;
  clients : list ServerWebSocket;
  messageQueue : list Message
}.

(** [new StubHub(doc, messageQueue)]: the document is given the id
    ['doc-15'] and version 1, the log is empty, and the web socket server
    starts without clients. *)
Definition new (doc : Doc) (messageQueue : list Message) : StubHub :=
  mkHub doc "doc-15" 1 [] [] messageQueue.

(** [ServerWebSocket.send(data)]: one argument, pushed onto the queue. *)
Definition envelope (ws : ServerWebSocket) (data : list Item) : Message :=
  {| msg_from := clientId ws;
     msg_to := replace (clientId ws) "-server" "";
     msg_data := data |}.

Definition send (h : StubHub) (ws : ServerWebSocket) (data : list Item) : StubHub :=
  mkHub (doc h) (doc_id h) (doc_version h) (changes h) (clients h)
        (messageQueue h ++ [envelope ws data]).

Definition getCollaboratorSockets (h : StubHub) (ws : ServerWebSocket)
  : list ServerWebSocket :=
  filter (fun client => __id__ client ≠ __id__ ws) (clients h).

Definition open (h : StubHub) (ws : ServerWebSocket) (documentId : string) (version : Z)
  : StubHub :=
  send h ws [IStr "openDone"; INum version].

(** [Array.prototype.splice(start)]: the elements from [start] on are
    removed from the array and returned; a negative [start] counts from the
    end. *)
Definition splice {A} (l : list A) (start : Z) : list A * list A :=
  let len := Z.of_nat (length l) in
  let from := (if start <? 0 then Z.max (len + start) 0 else Z.min start len)%Z in
  (drop (Z.to_nat from) l, take (Z.to_nat from) l).

(** Returns the removed changes and the hub with what is left of its log. *)
Definition getChangesSinceVersion (h : StubHub) (version : Z)
  : list Change * StubHub :=
  let '(removed, kept) := splice (changes h) (version - 1) in
  (removed, mkHub (doc h) (doc_id h) (doc_version h) kept (clients h) (messageQueue h)).

Definition _applyChange (h : StubHub) (change : Change) : option StubHub :=
  doc' ← doc_apply (doc h) change;
  Some (mkHub doc' (doc_id h) (doc_version h + 1) (changes h ++ [change]) (clients h) (messageQueue h)).

(** The loop [for (i...) DocumentChange.transformInplace(changes[i], newChange)]. *)
Fixpoint transform_all (changes : list Change) (newChange : Change)
  : option (list Change * Change) :=
  match changes with
  | [] => Some ([], newChange)
  | c :: rest =>
    '(c', newChange') ← transformInplace c newChange;
    '(rest', newChange'') ← transform_all rest newChange';
    Some (c' :: rest', newChange'')
  end.

Definition commit (h : StubHub) (ws : ServerWebSocket) (change : Change) (version : Z)
  : option StubHub :=
  if (doc_version h =? version)%Z then
    h ← _applyChange h change;
    let newVersion := doc_version h in
    let h := send h ws [IStr "commitDone"; INum newVersion] in
    let collaboratorSockets := getCollaboratorSockets h ws in
    Some (foldl (fun h socket => send h socket [IStr "update"; IChange change; INum newVersion])
                h collaboratorSockets)
  else
    let '(changes, h) := getChangesSinceVersion h (doc_version h) in
    let changes := map change_clone changes in
    let newChange := change_clone change in
    '(changes, newChange) ← transform_all changes newChange;
    h ← _applyChange h newChange;
    let newVersion := doc_version h in
    let collaboratorSockets := getCollaboratorSockets h ws in
    let h := foldl (fun h socket => send h socket [IStr "update"; INum newVersion; IChange newChange])
                   h collaboratorSockets in
    (* ws.send(['commitDone'], newVersion, changes) *)
    Some (send h ws [IStr "commitDone"]).

(** The messages of the protocol, [['open', documentId, version]],
    [['commit', change, version]] and [['close', documentId]]. *)
Inductive ClientMessage : Type :=
| MsgOpen (documentId : string) (version : Z)
| MsgCommit (change : Change) (version : Z)
| MsgClose (documentId : string).

(** [_onMessage(ws, data)] calls [this[method]] on the arguments; the hub
    has no [close], so that call fails. [None] is a handler that threw. *)
Definition _onMessage (h : StubHub) (ws : ServerWebSocket) (data : ClientMessage)
  : option StubHub :=
  match data with
  | MsgOpen documentId version => Some (open h ws documentId version)
  | MsgCommit change version => commit h ws change version
  | MsgClose _ => None
  end.

(** The states the hub goes through: it is built, handles messages to
    completion, and between two messages the web socket server may see
    clients come and go and the queue may be drained. *)
Inductive reachable : StubHub -> Prop :=
| reachable_new doc messageQueue : reachable (new doc messageQueue)
| reachable_message h ws data h' :
    reachable h -> _onMessage h ws data = Some h' -> reachable h'
| reachable_transport h clients' messageQueue' :
    reachable h ->
    reachable (mkHub (doc h) (doc_id h) (doc_version h) (changes h) clients' messageQueue').

(** The version counts the log. *)
Definition counted (h : StubHub) : Prop :=
  doc_version h = (1 + Z.of_nat (length (changes h)))%Z.

(** [later h h']: the hub gets from [h] to [h'] by handling messages and
    by such changes of its surroundings. *)
Inductive later : StubHub -> StubHub -> Prop :=
| later_now h : later h h
| later_message h h1 ws data h' :
    later h h1 -> _onMessage h1 ws data = Some h' -> later h h'
| later_transport h h1 clients' messageQueue' :
    later h h1 ->
    later h (mkHub (doc h1) (doc_id h1) (doc_version h1) (changes h1) clients' messageQueue').

End StubHub.

End Hub.

(** ** A hub to run *)

Module HubExamples.

Import Hub.

(** The document and [DocumentChange] are not among the sources.  The spec
    has a change applied to the document, cloned, and transformed against
    another change; the stand-ins below keep just that.  Changes are named
    by strings, the document is the list of the changes applied to it, and
    a change transformed against another carries a mark. *)

(** Modelled from the spec: [doc._apply(change)]. *)
Definition doc_apply (doc : list string) (change : string) : option (list string) :=
  Some (doc ++ [change]).

(** Modelled from the spec: [change.clone()]. *)
Definition change_clone (change : string) : string := change.

(** Modelled from the spec: [DocumentChange.transformInplace(A, B)]. *)
Definition transformInplace (A B : string) : option (string * string) :=
  Some ((A ++ "^")%string, (B ++ "^")%string).

Definition alice : ServerWebSocket := (ServerWebSocket_new 0 "alice-server").1.
Definition bob : ServerWebSocket := (ServerWebSocket_new 1 "bob-server").1.

Definition commit := Hub.commit doc_apply change_clone transformInplace.

(** The hub with two clients, before any commit. *)
Definition hub1 : StubHub :=
  mkHub ([] : list string) "doc-15" 1 ([] : list string) [alice; bob] [].

(** The same hub once bob has committed ["c1"] at version 1, with the queue
    drained. *)
Definition hub2 : StubHub :=
  mkHub ["c1"%string] "doc-15" 2 ["c1"%string] [alice; bob] [].

End HubExamples.

(** ** Operations and documents to run *)

Module Examples.

Import ObjectOperation.

#[local] Existing Instance Leaves.leaves.

Definition text_update (p : Path) (d : Leaves.op) : ObjectOperation :=
  mkOp UPDATE (Some p) JUndefined (Some d) (Some PString) JUndefined.

Definition array_update (p : Path) (d : Leaves.op) : ObjectOperation :=
  mkOp UPDATE (Some p) JUndefined (Some d) (Some PArray) JUndefined.

Definition create (p : Path) (v : JSON) : ObjectOperation :=
  mkOp CREATE (Some p) v None None JUndefined.

Definition delete (p : Path) (v : JSON) : ObjectOperation :=
  mkOp DELETE (Some p) v None None JUndefined.

Definition set (p : Path) (oldVal newVal : JSON) : ObjectOperation :=
  mkOp SET (Some p) newVal None None oldVal.

(** The document that holds [v] under the name [key] and nothing else. *)
Definition only (key : string) (v : JSON) : DataObject.t := JObj {[ key := v ]}.

Definition title : Path := ["title"%string].
Definition body : Path := ["body"%string].
Definition x : Path := ["x"%string].

(** Two concurrent insertions into the title ["Hello"]. *)
Definition hello : DataObject.t := only "title" (JStr "Hello").
Definition bang : ObjectOperation := text_update title (Leaves.TInsert 5 "!").
Definition lead : ObjectOperation := text_update title (Leaves.TInsert 0 ">").

(** A delete that holds another value than the stored one, against an
    update of the same path. *)
Definition abc : DataObject.t := only "body" (JStr "abc").
Definition stale_delete : ObjectOperation := delete body (JStr "zzz").
Definition append_d : ObjectOperation := text_update body (Leaves.TInsert 3 "d").

(** An update that does nothing. *)
Definition idle_update : ObjectOperation := text_update body Leaves.TNop.

(** A set to a value that is false in a condition. *)
Definition set_zero : ObjectOperation := set x (JStr "a") (JNum 0).
Definition set_new : ObjectOperation := set x (JStr "old") (JStr "new").
Definition delete_old : ObjectOperation := delete x (JStr "old").

(** A document that holds another value than the set and the delete
    above record. *)
Definition other : DataObject.t := only "x" (JStr "other").

(** A create of a path that holds a value already. *)
Definition one : DataObject.t := only "x" (JNum 1).
Definition create_two : ObjectOperation := create x (JNum 2).

(** Updates of one path with diffs of the two kinds, and a text update of
    that path that does nothing. *)
Definition text_insert : ObjectOperation := text_update x (Leaves.TInsert 0 "x").
Definition array_insert : ObjectOperation := array_update x (Leaves.AInsert 0 (JNum 1)).
Definition idle_text : ObjectOperation := text_update x Leaves.TNop.

(** A node with a text property [content], stored under its id; operations
    on the node and operations on its property. *)
Definition node (content : string) : JSON :=
  JObj {[ "content"%string := JStr content ]}.
Definition n1 : Path := ["n1"%string].
Definition n1_content : Path := ["n1"%string; "content"%string].
Definition with_node : DataObject.t := only "n1" (node "abc").
Definition delete_node : ObjectOperation := delete n1 (node "abc").
Definition append_content : ObjectOperation :=
  text_update n1_content (Leaves.TInsert 3 "d").
Definition replace_node : ObjectOperation := set n1 (node "abc") (node "q").
Definition set_content : ObjectOperation :=
  set n1_content (JStr "abc") (JStr "xyz").

End Examples.

(** ** ContainerAnnotation *)

Module ContainerAnnotation.

(** A fragment of an annotation: the piece of it that lies on one text
    property.  It refers to its annotation, whose fields its getters read;
    the getters below take the annotation as an argument. *)
Record Fragment : Type := mkFragment {
  frag_path : Path;
  mode : string
}.

(** The properties of the node, the flag [highlighted] (undefined until it
    is set) and the list [fragments] that [setHighlighted] walks. *)
Record ContainerAnnotation : Type := mkAnno {
  id : string;
  container : string;
  startPath : Path;
  startOffset : Z;
  endPath : Path;
  endOffset : Z;
  highlighted : option bool;
  fragments : list Fragment
}.

(** What [updateRange] reads of a selection. *)
Record Coordinate : Type := { coor_path : Path; coor_offset : Z }.

Record Selection : Type := {
  isContainerSelection : bool;
  sel_start : Coordinate;
  sel_end : Coordinate
}.

(** A call [tx.set(path, value)]. *)
Record TxSet : Type := mkSet { set_path : Path; set_value : JSON }.

Definition path_value (p : Path) : JSON := JArr (JStr <$> p).

(** [updateRange(tx, sel)]: the calls made on [tx], in order, or [None]
    when it throws. *)
Definition updateRange (this : ContainerAnnotation) (sel : Selection)
  : option (list TxSet) :=
  if negb (isContainerSelection sel) then None
  else
    Some
      ((if negb (bool_decide (startPath this = coor_path (sel_start sel)))
        then [mkSet [id this; "startPath"%string] (path_value (coor_path (sel_start sel)))]
        else [])
       ++ (if negb (startOffset this =? coor_offset (sel_start sel))%Z
           then [mkSet [id this; "startOffset"%string] (JNum (coor_offset (sel_start sel)))]
           else [])
       ++ (if negb (bool_decide (endPath this = coor_path (sel_end sel)))
           then [mkSet [id this; "endPath"%string] (path_value (coor_path (sel_end sel)))]
           else [])
       ++ (if negb (endOffset this =? coor_offset (sel_end sel))%Z
           then [mkSet [id this; "endOffset"%string] (JNum (coor_offset (sel_end sel)))]
           else [])).

(** An event ['highlighted'] emitted on the annotation or on a fragment. *)
Inductive Emitted : Type :=
| OnAnnotation (value : option bool)
| OnFragment (frag : Fragment) (value : option bool).

(** [setHighlighted(highlighted)]: the annotation afterwards and the events
    emitted. *)
Definition setHighlighted (this : ContainerAnnotation) (value : option bool)
  : ContainerAnnotation * list Emitted :=
  if negb (bool_decide (highlighted this = value)) then
    (mkAnno (id this) (container this) (startPath this) (startOffset this)
            (endPath this) (endOffset this) value (fragments this),
     OnAnnotation value :: map (fun frag => OnFragment frag value) (fragments this))
  else (this, []).

(** The loop [for (var i = 1; i < paths.length-1; i++)] over [paths[i]]. *)
Definition inner_paths (paths : list Path) : list Path :=
  omap (fun i => paths !! i) (seq 1 (length paths - 2)).

(** [getFragments()], on the paths that the container gives for the range
    from [startPath] to [endPath]. *)
Definition getFragments (this : ContainerAnnotation) (paths : list Path)
  : list Fragment :=
  match paths with
  | [] => []
  | [p] => [mkFragment p "property"]
  | p0 :: _ =>
    match last paths with
    | Some pl =>
      mkFragment p0 "start" :: mkFragment pl "end"
        :: map (fun p => mkFragment p "inner") (inner_paths paths)
    | None => []
    end
  end.



(** The getters [path] and [offset] of an anchor. *)
Definition Anchor_path (node : ContainerAnnotation) (isStart : bool) : Path :=
  if isStart then startPath node else endPath node.

Definition Anchor_offset (node : ContainerAnnotation) (isStart : bool) : Z :=
  if isStart then startOffset node else endOffset node.

End ContainerAnnotation.

(** ** More vocabulary for the object operations *)

Module ObjectOperationTerms.

Import ObjectOperation.

Section Terms.

Context {L : LeafOT}.

(** The module whose [fromJSON] reads the JSON of [d] back: the one named
    by the [propertyType] that [toJSON] writes. *)
Definition leaf_reads_back (d : leaf) : Prop :=
  (if _isArrayOperation d then ArrayOperation_fromJSON (leaf_toJSON d)
   else TextOperation_fromJSON (leaf_toJSON d)) = Some d.

(** The reading of [invert]: text when the diff says so, array otherwise. *)
Definition invert_reads (d : leaf) : option leaf :=
  if _isTextOperation d then TextOperation_fromJSON (leaf_toJSON d)
  else ArrayOperation_fromJSON (leaf_toJSON d).

(** Inverting [d] twice, the way [invert] does it, gives [d] back, and the
    inverse is of the kind of [d]. *)
Definition leaf_involutive (d : leaf) : Prop :=
  exists op op',
    invert_reads d = Some op /\
    _isTextOperation (leaf_invert op) = _isTextOperation d /\
    _isArrayOperation (leaf_invert op) = _isArrayOperation d /\
    invert_reads (leaf_invert op) = Some op' /\
    leaf_invert op' = d.

(** The pairs of tags whose rule throws. *)
Definition illegal (t u : OpType) : bool :=
  match t, u with
  | CREATE, (CREATE | DELETE | UPDATE | SET) => true
  | (DELETE | UPDATE | SET), CREATE => true
  | UPDATE, SET | SET, UPDATE => true
  | _, _ => false
  end.

(** [o] with [original] cleared and a [val] that is false in a condition
    dropped. *)
Definition stripped (o : ObjectOperation) : ObjectOperation :=
  set_original JUndefined
    (set_val (if truthy (val o) then val o else JUndefined) o).

(** The operand a transformation works on: the operand itself in place,
    its clone otherwise. *)
Definition operand (inpl : bool) (o : ObjectOperation) : ObjectOperation :=
  if inpl then o else stripped o.

End Terms.

End ObjectOperationTerms.

(** ** More vocabulary for the hub *)

Module HubTerms.

(** The string has no ['-'] in it. *)
Fixpoint dashless (s : string) : bool :=
  match s with
  | EmptyString => true
  | String c s' => negb (Ascii.eqb c "-"%char) && dashless s'
  end.

Section Terms.

Context {Doc Change : Type}.
Variable doc_apply : Doc -> Change -> option Doc.

(** The changes applied one after the other. *)
Fixpoint apply_all (doc : Doc) (changes : list Change) : option Doc :=
  match changes with
  | [] => Some doc
  | change :: rest => doc' ← doc_apply doc change; apply_all doc' rest
  end.

End Terms.

End HubTerms.

(** * Properties of the document adapter *)

Module DataObjectFacts.

Import DataObject.

Lemma entry_store r p o o' : store r p o = Some o' -> entry o' p = r.
Proof.
  revert o o'. induction p as [|k p IH]; intros o o'; simpl.
  - by intros [= <-].
  - destruct o as [[]|]; try done.
    destruct (store r p (fields !! k)) as [r'|] eqn:Hs; [|done]. simpl.
    intros [= <-]. rewrite lookup_partial_alter_eq. by apply (IH _ _ Hs).
Qed.

Lemma store_store r1 r2 p o o1 :
  store r1 p o = Some o1 -> store r2 p o1 = store r2 p o.
Proof.
  revert o o1. induction p as [|k p IH]; intros o o1; simpl.
  - done.
  - destruct o as [[]|]; try done.
    destruct (store r1 p (fields !! k)) as [r'|] eqn:Hs; [|done]. simpl.
    intros [= <-]. rewrite lookup_partial_alter_eq. rewrite (IH _ _ Hs).
    destruct (store r2 p (fields !! k)) as [r''|]; [|done]. simpl.
    do 3 f_equal. apply map_eq. intros i. destruct (decide (k = i)) as [->|Hne].
    + by rewrite !lookup_partial_alter_eq.
    + by rewrite !lookup_partial_alter_ne.
Qed.

Lemma store_possible r1 r2 p o o1 :
  store r1 p o = Some o1 -> is_Some (store r2 p o).
Proof.
  revert o o1. induction p as [|k p IH]; intros o o1; simpl.
  - eauto.
  - destruct o as [[]|]; try done.
    destruct (store r1 p (fields !! k)) as [r'|] eqn:Hs; [|done].
    destruct (IH _ _ Hs) as [x ->]. simpl. eauto.
Qed.

Lemma store_entry r p o o1 :
  store r p o = Some o1 -> store (entry o p) p o = Some o.
Proof.
  revert o o1. induction p as [|k p IH]; intros o o1; simpl.
  - done.
  - destruct o as [[]|]; try done.
    destruct (store r p (fields !! k)) as [r'|] eqn:Hs; [|done]. intros _.
    rewrite (IH _ _ Hs). simpl. do 3 f_equal.
    apply map_eq. intros i. destruct (decide (k = i)) as [->|Hne].
    + by rewrite !lookup_partial_alter_eq.
    + by rewrite !lookup_partial_alter_ne.
Qed.

Lemma apart_cons k k' p q :
  apart (k :: p) (k' :: q) -> k <> k' \/ (k = k' /\ apart p q).
Proof.
  intros [H1 H2]. destruct (decide (k = k')) as [->|]; [right|by left].
  split; [done|]. split; intros Hpre.
  - apply H1. by apply prefix_cons.
  - apply H2. by apply prefix_cons.
Qed.

Lemma apart_nil_l q : ~ apart [] q.
Proof. intros [H _]. apply H, prefix_nil. Qed.

Lemma apart_nil_r p : ~ apart p [].
Proof. intros [_ H]. apply H, prefix_nil. Qed.

Lemma entry_store_apart r p q o o' :
  apart p q -> store r p o = Some o' -> entry o' q = entry o q.
Proof.
  revert q o o'. induction p as [|k p IH]; intros q o o' Hap; simpl.
  - by apply apart_nil_l in Hap.
  - destruct q as [|k' q]; [by apply apart_nil_r in Hap|].
    destruct o as [[]|]; try done.
    destruct (store r p (fields !! k)) as [r'|] eqn:Hs; [|done]. simpl.
    intros [= <-]. simpl.
    destruct (apart_cons _ _ _ _ Hap) as [Hne|[<- Hap']].
    + by rewrite lookup_partial_alter_ne.
    + rewrite lookup_partial_alter_eq. by apply (IH _ _ _ Hap' Hs).
Qed.

Lemma store_commute r1 r2 p q o o1 o2 :
  apart p q -> store r1 p o = Some o1 -> store r2 q o = Some o2 ->
  exists o', store r2 q o1 = Some o' /\ store r1 p o2 = Some o'.
Proof.
  revert q o o1 o2. induction p as [|k p IH]; intros q o o1 o2 Hap; simpl.
  - by apply apart_nil_l in Hap.
  - destruct q as [|k' q]; [by apply apart_nil_r in Hap|].
    destruct o as [[]|]; try done. simpl.
    destruct (store r1 p (fields !! k)) as [x|] eqn:Hs1; [|done].
    destruct (store r2 q (fields !! k')) as [y|] eqn:Hs2; [|done]. simpl.
    intros [= <-] [= <-]. simpl.
    destruct (apart_cons _ _ _ _ Hap) as [Hne|[<- Hap']].
    + rewrite !lookup_partial_alter_ne by done. rewrite Hs1, Hs2. simpl.
      eexists. split; [done|]. do 3 f_equal.
      apply map_eq. intros i.
      destruct (decide (k = i)) as [->|Hk], (decide (k' = i)) as [->|Hk']; try done;
        rewrite ?lookup_partial_alter_eq, ?lookup_partial_alter_ne,
          ?lookup_partial_alter_eq by done; done.
    + rewrite !lookup_partial_alter_eq.
      destruct (IH _ _ _ _ Hap' Hs1 Hs2) as (z & -> & ->). simpl.
      eexists. split; [done|]. do 3 f_equal.
      apply map_eq. intros i. destruct (decide (k = i)) as [->|Hk].
      * by rewrite !lookup_partial_alter_eq.
      * by rewrite !lookup_partial_alter_ne.
Qed.

(** The same for the documents themselves. *)

Lemma put_store r p s s' : put r p s = Some s' <-> p <> [] /\ store r p (Some s) = Some (Some s').
Proof.
  unfold put. destruct p as [|k p]; [by split; [|intros []]|].
  destruct (store r (k :: p) (Some s)) as [[x|]|] eqn:Hs; simpl; split; try done;
    try (by intros [_ [=]]).
  - intros [= <-]. done.
  - intros [_ [= <-]]. done.
Qed.

Lemma store_Some r k p o o' : store r (k :: p) o = Some o' -> is_Some o'.
Proof.
  simpl. destruct o as [[]|]; try done.
  destruct (store r p _); simpl; [|done]. intros [= <-]. eauto.
Qed.

Lemma lookup_put r p s s' : put r p s = Some s' -> s' !! p = r.
Proof. intros [_ H]%put_store. by apply (entry_store _ _ _ _ H). Qed.

Lemma put_put r1 r2 p s s1 : put r1 p s = Some s1 -> put r2 p s1 = put r2 p s.
Proof.
  intros [Hp H]%put_store. unfold put. destruct p; [done|].
  by rewrite (store_store _ _ _ _ _ H).
Qed.

Lemma put_possible r1 r2 p s s1 : put r1 p s = Some s1 -> is_Some (put r2 p s).
Proof.
  intros [Hp H]%put_store. destruct (store_possible _ r2 _ _ _ H) as [x Hx].
  destruct p as [|k p]; [done|]. destruct (store_Some _ _ _ _ _ Hx) as [y ->].
  exists y. apply put_store. done.
Qed.

Lemma put_lookup r p s s1 : put r p s = Some s1 -> put (s !! p) p s = Some s.
Proof.
  intros [Hp H]%put_store. apply put_store. split; [done|].
  apply (store_entry _ _ _ _ H).
Qed.

Lemma lookup_put_apart r p q s s' : apart p q -> put r p s = Some s' -> s' !! q = s !! q.
Proof. intros Hap [_ H]%put_store. by apply (entry_store_apart _ _ _ _ _ Hap H). Qed.

Lemma apart_sym p q : apart p q -> apart q p.
Proof. intros [H1 H2]. by split. Qed.

(** Putting back what was there undoes a [put]. *)
Lemma put_back r p s s1 : put r p s = Some s1 -> put (s !! p) p s1 = Some s.
Proof.
  intros H. rewrite (put_put _ _ _ _ _ H). by apply (put_lookup _ _ _ _ H).
Qed.

Lemma put_commute r1 r2 p q s s1 s2 :
  apart p q -> put r1 p s = Some s1 -> put r2 q s = Some s2 ->
  exists s', put r2 q s1 = Some s' /\ put r1 p s2 = Some s'.
Proof.
  intros Hap [Hp H1]%put_store [Hq H2]%put_store.
  destruct (store_commute _ _ _ _ _ _ _ Hap H1 H2) as (o' & H3 & H4).
  destruct q as [|k q]; [done|]. destruct (store_Some _ _ _ _ _ H3) as [s' ->].
  exists s'. split; apply put_store; done.
Qed.

End DataObjectFacts.

(** * Properties of the object operations *)

Module ObjectOperationFacts.

Import ObjectOperation.

Section WithLeaves.

Context {L : LeafOT}.

Implicit Types a b o : ObjectOperation.

(** ** What can be thrown *)

Lemma only_Error_Ok {A} (x : A) : only_Error (Ok x).
Proof. intros ? ?; discriminate. Qed.

Lemma only_Error_Error {A} msg : only_Error (A := A) (Throw (Error msg)).
Proof. intros ? ?; discriminate. Qed.

Lemma only_Error_lift {A} msg (m : option A) : only_Error (lift msg m).
Proof. destruct m; [apply only_Error_Ok | apply only_Error_Error]. Qed.

Lemma only_Error_bind {A B} (m : result Exn A) (f : A -> result Exn B) :
  only_Error m -> (forall x, only_Error (f x)) -> only_Error (m ≫= f).
Proof.
  intros Hm Hf. destruct m as [x|e]; simpl; [apply Hf|].
  intros x y Heq. injection Heq as ->. exact (Hm x y eq_refl).
Qed.

Create HintDb exn.
#[local] Hint Resolve only_Error_Ok only_Error_Error only_Error_lift : exn.

Ltac exn :=
  repeat first
    [ progress auto with exn
    | apply only_Error_bind; [|intros ?]
    | match goal with |- only_Error (if ?c then _ else _) => destruct c end
    | match goal with |- only_Error (match ?c with _ => _ end) => destruct c end ].

Lemma only_Error_new data : only_Error (new data).
Proof. unfold new. exn. Qed.

Lemma only_Error_clone o : only_Error (clone o).
Proof. apply only_Error_new. Qed.

Lemma only_Error_isNOP o : only_Error (isNOP o).
Proof. unfold isNOP. exn. Qed.

#[local] Hint Resolve only_Error_new only_Error_clone only_Error_isNOP : exn.

Lemma only_Error_rule i rule a b :
  __transform__ i = Some rule -> only_Error (rule a b).
Proof.
  unfold __transform__. intros H.
  repeat match type of H with
         | (if ?c then _ else _) = _ => destruct c
         end; simplify_eq;
    unfold transform_delete_delete, transform_delete_create,
      transform_delete_update, transform_create_create,
      transform_create_update, transform_update_update,
      transform_create_set, transform_delete_set, transform_update_set,
      transform_set_set, delete_update_body, delete_set_body; exn.
Qed.

(** ** Shapes of well-formed operations *)

Lemma wf_NOP o : wf o -> type o = NOP -> o = blank NOP.
Proof.
  unfold wf, new. intros H Ht. rewrite Ht in H. by simplify_eq.
Qed.

Lemma wf_path o : wf o -> type o <> NOP -> exists p, path o = Some p.
Proof.
  unfold wf, new. intros H Ht.
  destruct (path o) as [p|]; [by eauto|].
  destruct (type o); congruence.
Qed.

Lemma wf_value o :
  wf o -> type o = CREATE \/ type o = DELETE -> truthy (val o) = true.
Proof.
  unfold wf, new. intros H Ht.
  destruct (path o) as [p|], (truthy (val o)); try done;
    destruct Ht as [Ht|Ht]; rewrite Ht in H; congruence.
Qed.

Lemma wf_update o :
  wf o -> type o = UPDATE ->
  exists d,
    diff o = Some d /\
    ((_isTextOperation d = true /\ propertyType o = Some PString) \/
     (_isTextOperation d = false /\ _isArrayOperation d = true /\
      propertyType o = Some PArray)).
Proof.
  unfold wf, new. intros H Ht. rewrite Ht in H.
  destruct (path o) as [p|]; [|congruence].
  destruct (diff o) as [d|] eqn:Hd; [|congruence].
  exists d. split; [done|].
  destruct (_isTextOperation d).
  - left. split; [done|]. injection H as H. by rewrite <- H.
  - destruct (_isArrayOperation d); [|congruence].
    right. repeat split. injection H as H. by rewrite <- H.
Qed.

(** Cloning an update, a create or a delete that the constructor built
    gives the operation back, provided the diff is cloned faithfully. *)
Lemma clone_wf_same o :
  (forall d : leaf, leaf_clone d = d) ->
  wf o -> type o <> SET -> clone o = Ok o.
Proof.
  intros Hclone Hwf Ht. unfold clone.
  destruct o as [t p v d pt og]. unfold wf, new in *. simpl in *.
  destruct t; try done.
  - destruct p as [p|]; [|done]. destruct (truthy v) eqn:Hv; [|done].
    unfold cloneDeep. simpl. rewrite Hv. done.
  - destruct p as [p|]; [|done]. destruct (truthy v) eqn:Hv; [|done].
    unfold cloneDeep. simpl. rewrite Hv. done.
  - destruct p as [p|]; [|done]. destruct d as [d|]; [|done]. simpl.
    rewrite Hclone. done.
Qed.


Lemma clone_wf_set o :
  wf o -> type o = SET -> truthy (val o) = true \/ val o = JUndefined ->
  clone o = Ok (set_original JUndefined o).
Proof.
  intros Hwf Ht Hv. unfold clone.
  destruct o as [t p v d pt og]. unfold wf, new in *. simpl in *. subst t.
  destruct p as [p|]; [|done]. simplify_eq. unfold set_original, cloneDeep; simpl.
  destruct Hv as [-> | ->]; done.
Qed.

Lemma hasConflict_true a b :
  hasConflict a b = true <-> type a <> NOP /\ type b <> NOP /\ path a = path b.
Proof.
  unfold hasConflict, isEqual.
  destruct (decide (type a = NOP)) as [Ha|Ha], (decide (type b = NOP)) as [Hb|Hb];
    rewrite ?(bool_decide_eq_true_2 _ Ha), ?(bool_decide_eq_true_2 _ Hb),
      ?(bool_decide_eq_false_2 _ Ha), ?(bool_decide_eq_false_2 _ Hb); simpl;
    try (split; [discriminate | tauto]).
  rewrite bool_decide_eq_true. tauto.
Qed.

(** The table has a rule for every pair of tags other than NOP. *)
Lemma dispatch_complete (t u : OpType) :
  t <> NOP -> u <> NOP -> is_Some (__transform__ (Z.lor (CODE t) (CODE u))).
Proof. destruct t, u; intros; try done; vm_compute; eauto. Qed.

(** ** Conflicts *)

Lemma Conflict_thrown a b options a' b' :
  transform a b options = Throw (Conflict a' b') <->
  a' = a /\ b' = b /\ no_conflict options = true /\
  type a <> NOP /\ type b <> NOP /\ path a = path b.
Proof.
  unfold transform.
  destruct (no_conflict options && hasConflict a b) eqn:Hc.
  - apply andb_true_iff in Hc as [Hn Hc]. apply hasConflict_true in Hc.
    split.
    + intros Heq. injection Heq as <- <-. tauto.
    + intros (-> & -> & _). done.
  - split.
    + intros Heq. exfalso. revert Heq.
      match goal with |- ?r = _ -> _ => assert (only_Error r) as Hr end;
        [|apply Hr].
      apply only_Error_bind; [exn|]. intros [a1 b1].
      apply only_Error_bind; [exn|]. intros na.
      apply only_Error_bind; [exn|]. intros nb.
      destruct nb; [exn|].
      destruct (isEqual _ _); [|exn].
      destruct (__transform__ _) as [rule|] eqn:Hrule; [|exn].
      eapply only_Error_rule, Hrule.
    + intros (_ & _ & Hn & Ha & Hb & Hp). exfalso.
      rewrite Hn in Hc. simpl in Hc.
      apply not_true_iff_false in Hc. apply Hc, hasConflict_true. tauto.
Qed.

(** C9. With the option [no-conflict] set, [transform] throws a [Conflict]
    exactly when both operations carry a tag other than NOP and their paths
    are equal, and the conflict carries the two operands; without the
    option, and whenever an operand is tagged NOP or the paths differ, no
    [Conflict] is thrown. *)
Theorem transform_Conflict_iff a b options a' b' :
  transform a b options = Throw (Conflict a' b') <->
  a' = a /\ b' = b /\ no_conflict options = true /\
  type a <> NOP /\ type b <> NOP /\ path a = path b.
Proof. apply Conflict_thrown. Qed.

(** C10. The conflict check comes first and looks at the tag: two updates
    of one path, one of which has a diff that is a leaf NOP, are a
    [Conflict] under [no-conflict] although [isNOP] holds of that update;
    without the option the same pair is handed back as it is. *)
Theorem Conflict_precedes_NOP_shortcut a b (inpl : bool) :
  (forall d : leaf, leaf_clone d = d) ->
  wf a -> wf b -> type a = UPDATE -> type b = UPDATE -> path a = path b ->
  isNOP a = Ok true \/ isNOP b = Ok true ->
  transform a b {| inplace := inpl; no_conflict := true |} = Throw (Conflict a b) /\
  transform a b {| inplace := inpl; no_conflict := false |} = Ok (a, b) /\
  type a <> NOP /\ type b <> NOP.
Proof.
  intros Hclone Hwa Hwb Ha Hb Hp Hnop.
  assert (type a <> NOP /\ type b <> NOP) as [Hna Hnb] by (rewrite Ha, Hb; done).
  split; [|split; [|done]].
  - apply Conflict_thrown. simpl. tauto.
  - unfold transform. simpl.
    assert ((if negb inpl then a' ← clone a; b' ← clone b; Ok (a', b')
             else Ok (a, b)) = Ok (a, b)) as ->.
    { destruct inpl; simpl; [done|].
      rewrite !clone_wf_same by (done || congruence). done. }
    simpl.
    destruct (wf_update a Hwa Ha) as (da & Hda & _).
    destruct (wf_update b Hwb Hb) as (db & Hdb & _).
    unfold isNOP in *. rewrite Ha, Hb, Hda, Hdb in *. simpl in *.
    destruct Hnop as [Hn|Hn]; injection Hn as Hn; rewrite Hn; simpl; [done|].
    destruct (leaf_isNOP da); done.
Qed.

(** ** The rules *)

Lemma isEqual_refl (p : option Path) : isEqual p p = true.
Proof. unfold isEqual. by apply bool_decide_eq_true. Qed.

Lemma delete_set_rule a b :
  type a = DELETE -> type b = SET ->
  transform_delete_set a b false
  = Ok (set_type NOP a, set_original JUndefined (set_type CREATE b)) /\
  transform_delete_set b a false
  = Ok (set_type NOP b, set_val (val b) a).
Proof.
  intros Ha Hb. unfold transform_delete_set, delete_set_body.
  rewrite Ha, Hb. done.
Qed.




(** Two updates of one path, of which one has a diff that is a leaf NOP,
    are handed back as they are. *)
Lemma transform_idle_updates a b da db (inpl : bool) :
  (forall d : leaf, leaf_clone d = d) ->
  wf a -> wf b -> type a = UPDATE -> type b = UPDATE ->
  diff a = Some da -> diff b = Some db ->
  leaf_isNOP da = true \/ leaf_isNOP db = true ->
  transform a b {| inplace := inpl; no_conflict := false |} = Ok (a, b).
Proof.
  intros Hclone Hwa Hwb Ha Hb Hda Hdb Hnop. unfold transform. simpl.
  assert ((if negb inpl then a' ← clone a; b' ← clone b; Ok (a', b')
           else Ok (a, b)) = Ok (a, b)) as ->.
  { destruct inpl; simpl; [done|].
    rewrite !clone_wf_same by (done || congruence). done. }
  simpl. unfold isNOP. rewrite Ha, Hb, Hda, Hdb. simpl.
  destruct Hnop as [-> | ->]; simpl; [done|]. by destruct (leaf_isNOP da).
Qed.

(** Two updates whose diffs are of different kinds: rule U-U raises when
    each leaf module reads back its own kind only. *)
Lemma update_update_mismatch a b :
  own_kind_only ->
  wf a -> wf b -> type a = UPDATE -> type b = UPDATE ->
  propertyType a <> propertyType b ->
  exists msg, transform_update_update a b = Throw (Error msg).
Proof.
  intros Hown Hwa Hwb Ha Hb Hne.
  destruct (wf_update a Hwa Ha) as (da & Hda & Hka).
  destruct (wf_update b Hwb Hb) as (db & Hdb & Hkb).
  unfold transform_update_update. rewrite Hda, Hdb. simpl.
  destruct Hkb as [[Hxb Hptb]|(Hxb & Hyb & Hptb)]; rewrite Hptb in *;
    destruct Hka as [[Hxa Hpta]|(Hxa & Hya & Hpta)]; try congruence.
  - rewrite bool_decide_eq_true_2 by done.
    rewrite (proj1 (Hown da) Hya). simpl. eauto.
  - rewrite bool_decide_eq_false_2 by done.
    rewrite (proj2 (Hown da) Hxa). simpl. eauto.
Qed.

(** C8, as amended.  Rule U-U hands the two diffs to the leaf
    transformation chosen by the [propertyType] of [b] alone, text for
    ['string'] and array otherwise, and installs the pair it returns; the
    rule has no check of its own that the diff of [a] is of the same kind.
    [transform] runs this rule on two well-formed updates of one path
    neither of whose diffs is a leaf NOP; there, diffs of different kinds
    make it raise an error when each leaf module reads back its own kind
    only.  When one of the diffs is a leaf NOP, [transform] hands the pair
    back as it is, whatever the kinds of the diffs. *)
Theorem rule_update_update a b da db :
  diff a = Some da -> diff b = Some db ->
  match leaf_transform_by (bool_decide (propertyType b = Some PString)) da db with
  | Some (ta, tb) => transform_update_update a b = Ok (set_diff ta a, set_diff tb b)
  | None => exists msg, transform_update_update a b = Throw (Error msg)
  end /\
  ((forall d : leaf, leaf_clone d = d) ->
   wf a -> wf b -> type a = UPDATE -> type b = UPDATE -> path a = path b ->
   forall inpl : bool,
     (leaf_isNOP da = false -> leaf_isNOP db = false ->
      transform a b {| inplace := inpl; no_conflict := false |}
      = transform_update_update a b /\
      (own_kind_only -> propertyType a <> propertyType b ->
       exists msg,
         transform a b {| inplace := inpl; no_conflict := false |}
         = Throw (Error msg))) /\
     (leaf_isNOP da = true \/ leaf_isNOP db = true ->
      transform a b {| inplace := inpl; no_conflict := false |} = Ok (a, b))).
Proof.
  intros Hda Hdb. split.
  - unfold transform_update_update, leaf_transform_by. rewrite Hda, Hdb. simpl.
    destruct (bool_decide (propertyType b = Some PString)).
    + destruct (TextOperation_fromJSON da) as [xa|]; simpl; [|by eauto].
      destruct (TextOperation_fromJSON db) as [xb|]; simpl; [|by eauto].
      destruct (TextOperation_transform xa xb _) as [[ta tb]|]; simpl; by eauto.
    + destruct (ArrayOperation_fromJSON da) as [xa|]; simpl; [|by eauto].
      destruct (ArrayOperation_fromJSON db) as [xb|]; simpl; [|by eauto].
      destruct (ArrayOperation_transform xa xb _) as [[ta tb]|]; simpl; by eauto.
  - intros Hclone Hwa Hwb Ha Hb Hp inpl. split.
    + intros Hna Hnb.
      assert (transform a b {| inplace := inpl; no_conflict := false |}
              = transform_update_update a b) as Hrule.
      { unfold transform. simpl.
        assert ((if negb inpl then a' ← clone a; b' ← clone b; Ok (a', b')
                 else Ok (a, b)) = Ok (a, b)) as ->.
        { destruct inpl; simpl; [done|].
          rewrite !clone_wf_same by (done || congruence). done. }
        simpl. unfold isNOP. rewrite Ha, Hb, Hda, Hdb. simpl.
        rewrite Hna, Hnb, Hp, isEqual_refl. done. }
      split; [done|]. intros Hown Hne. rewrite Hrule.
      by apply update_update_mismatch.
    + intros Hnop. by eapply transform_idle_updates.
Qed.

(** ** Applying an operation *)

Lemma apply_NOP o s : type o = NOP -> apply o s = Ok s.
Proof. unfold apply. by intros ->. Qed.

Lemma lift_Ok {A} msg (m : option A) x : lift msg m = Ok x <-> m = Some x.
Proof. destruct m; simpl; split; congruence. Qed.

(** [apply] succeeds exactly when [effect] has an answer for the entry
    under the path and the adapter can store it. *)
Lemma apply_Ok o s s' p :
  type o <> NOP -> path o = Some p ->
  apply o s = Ok s' <->
  exists r, effect o (s !! p) = Ok r /\ DataObject.put r p s = Some s'.
Proof.
  intros Ht Hp.
  unfold apply, effect, the_path, DataObject.set, DataObject.delete_strict,
    DataObject.get, cloneDeep.
  rewrite Hp. destruct (type o); try done; simpl.
  - rewrite lift_Ok. split; [by eauto|]. by intros (r & [= <-] & H).
  - destruct (s !! p); simpl.
    + rewrite lift_Ok. split; [by eauto|]. by intros (r & [= <-] & H).
    + split; [done|]. by intros (r & H & _).
  - destruct (diff o) as [d|]; simpl; [|split; [done|by intros (r & H & _)]].
    destruct (leaf_apply d _) as [w|]; simpl; [|split; [done|by intros (r & H & _)]].
    rewrite lift_Ok. split; [by eauto|]. by intros (r & [= <-] & H).
  - rewrite lift_Ok. split; [by eauto|]. by intros (r & [= <-] & H).
Qed.

(** Applying an operation of the path [p] after an entry was put there. *)
Lemma apply_after o r r' p s s1 s' :
  type o <> NOP -> path o = Some p ->
  DataObject.put r p s = Some s1 ->
  effect o r = Ok r' -> DataObject.put r' p s = Some s' ->
  apply o s1 = Ok s'.
Proof.
  intros Ht Hp Hput He Hput'. apply (apply_Ok o s1 s' p Ht Hp).
  exists r'. rewrite (DataObjectFacts.lookup_put _ _ _ _ Hput).
  split; [done|]. by rewrite (DataObjectFacts.put_put _ _ _ _ _ Hput).
Qed.

(** ** Inversion *)

Lemma invert_of_wf o :
  wf o -> type o <> UPDATE ->
  invert o = Ok (match type o with
                 | NOP => o
                 | CREATE => set_type DELETE o
                 | DELETE => set_type CREATE o
                 | _ => set_original (val o) (set_val (original o) o)
                 end).
Proof.
  intros Hwf Ht. unfold invert. unfold wf in Hwf.
  destruct (type o) eqn:Et; try done; rewrite ?Hwf; simpl; try done.
  rewrite (wf_NOP o Hwf Et). done.
Qed.

(** C2, as amended.  On a state the operation was recorded against, a
    well-formed operation followed by its inverse gives the state back:
    the inverse exists, applies, and its result is the state before. *)
Theorem invert_undoes_apply o (s s1 : DataObject.t) :
  wf o -> recorded_against o s -> apply o s = Ok s1 ->
  exists o', invert o = Ok o' /\ apply o' s1 = Ok s.
Proof.
  intros Hwf Hrec Happ.
  destruct (decide (type o = NOP)) as [Hn|Hn].
  { rewrite (invert_of_wf o Hwf) by congruence. rewrite Hn.
    eexists. split; [done|].
    rewrite apply_NOP in Happ by done. injection Happ as <-.
    by apply apply_NOP. }
  destruct (wf_path o Hwf Hn) as [p Hp].
  apply (apply_Ok o s s1 p Hn Hp) in Happ as (r & He & Hput).
  pose proof (DataObjectFacts.put_back _ _ _ _ Hput) as Hback.
  pose proof (DataObjectFacts.lookup_put _ _ _ _ Hput) as Hnow.
  unfold recorded_against in Hrec. rewrite Hp in Hrec.
  unfold effect in He.
  destruct (decide (type o = UPDATE)) as [Hu|Hu].
  - rewrite Hu in Hrec, He. destruct Hrec as (d & v & Hd & Hv & Hinv).
    rewrite Hd, Hv in He. simpl in He.
    destruct (leaf_apply d v) as [w|] eqn:Hw; [|done]. injection He as <-.
    destruct (Hinv w Hw) as (op & Hop & Hundo).
    unfold invert. rewrite Hu. unfold wf in Hwf. rewrite Hwf. simpl.
    rewrite Hd. simpl. rewrite Hop. simpl. eexists. split; [done|].
    apply (apply_Ok _ s1 s p); [simpl; congruence | done |].
    exists (Some v). split; [|by rewrite <- Hv].
    unfold effect. simpl. rewrite Hu, Hnow. simpl. by rewrite Hundo.
  - rewrite (invert_of_wf o Hwf Hu). eexists. split; [done|].
    destruct (type o) eqn:Et; try done.
    + injection He as <-.
      apply (apply_Ok _ s1 s p); [done..|].
      exists None. split; [|by rewrite <- Hrec].
      unfold effect. simpl. by rewrite Hnow.
    + rewrite Hrec in He. injection He as <-.
      apply (apply_Ok _ s1 s p); [done..|].
      exists (Some (val o)). split; [|by rewrite <- Hrec].
      unfold effect. done.
    + injection He as <-.
      apply (apply_Ok _ s1 s p); [simpl; congruence | done |].
      exists (Some (original o)). split; [|by rewrite <- Hrec].
      unfold effect. simpl. by rewrite Et.
Qed.

(** ** Convergence *)

(** Operations whose paths are apart can be applied in either order. *)
Lemma apply_commute a b s sa sb p q :
  type a <> NOP -> type b <> NOP -> path a = Some p -> path b = Some q ->
  DataObject.apart p q ->
  apply a s = Ok sa -> apply b s = Ok sb ->
  exists s', apply a sb = Ok s' /\ apply b sa = Ok s'.
Proof.
  intros Ha Hb Hp Hq Hpq.
  intros (ra & Hea & Hpa)%(apply_Ok a s sa p Ha Hp).
  intros (rb & Heb & Hpb)%(apply_Ok b s sb q Hb Hq).
  destruct (DataObjectFacts.put_commute _ _ _ _ _ _ _ Hpq Hpa Hpb) as (s' & H1 & H2).
  exists s'. split.
  - apply (apply_Ok a sb s' p Ha Hp). exists ra.
    rewrite (DataObjectFacts.lookup_put_apart _ _ _ _ _ (DataObjectFacts.apart_sym _ _ Hpq) Hpb).
    done.
  - apply (apply_Ok b sa s' q Hb Hq). exists rb.
    rewrite (DataObjectFacts.lookup_put_apart _ _ _ _ _ Hpq Hpa).
    done.
Qed.

Lemma isNOP_wf o : wf o -> isNOP o = Ok (idleb o).
Proof.
  intros Hwf. unfold isNOP, idleb.
  destruct (type o) eqn:Et; try done.
  destruct (wf_update o Hwf Et) as (d & -> & _). done.
Qed.

Lemma transform_inplace_wf a b :
  wf a -> wf b ->
  transform a b {| inplace := true; no_conflict := false |}
  = if idleb a || idleb b then Ok (a, b)
    else if isEqual (path a) (path b) then
      match __transform__ (Z.lor (CODE (type a)) (CODE (type b))) with
      | Some rule => rule a b
      | None => Throw (Error "__transform__[...] is not a function")
      end
    else Ok (a, b).
Proof.
  intros Ha Hb. unfold transform. simpl.
  rewrite (isNOP_wf a Ha). simpl.
  destruct (idleb a); simpl; [done|].
  rewrite (isNOP_wf b Hb). simpl. by destruct (idleb b).
Qed.

Lemma effect_idle {LL : LeafLaws L} o old :
  idle o -> effect o old = Ok (Some (default JUndefined old)).
Proof.
  intros (Ht & d & Hd & Hn). unfold effect. rewrite Ht, Hd. simpl.
  by rewrite NOP_apply.
Qed.

(** What [effect] stores does not depend on the entry it finds, unless the
    operation is an update; a delete stores nothing. *)
Lemma effect_stores o old r :
  type o <> NOP -> type o <> DELETE -> effect o old = Ok r ->
  exists v, r = Some v /\ effect o (Some (default JUndefined old)) = Ok r.
Proof.
  intros Hn Hd. unfold effect. destruct (type o); try done; simpl.
  - intros [= <-]. eauto.
  - destruct (diff o); simpl; [|done].
    destruct (leaf_apply _ _); simpl; [|done]. intros [= <-]. eauto.
  - intros [= <-]. eauto.
Qed.

(** An idle update and another operation on the same path: both orders
    agree unless the other one is a delete. *)
Lemma apply_idle {LL : LeafLaws L} a b s sa sb p :
  idle a -> type b <> NOP -> type b <> DELETE ->
  path a = Some p -> path b = Some p ->
  apply a s = Ok sa -> apply b s = Ok sb ->
  exists s', apply a sb = Ok s' /\ apply b sa = Ok s'.
Proof.
  intros Hidle Hb Hbd Hpa Hpb.
  assert (type a <> NOP) as Ha by (destruct Hidle as [-> _]; done).
  intros (ra & Hea & Hputa)%(apply_Ok a s sa p Ha Hpa).
  intros (rb & Heb & Hputb)%(apply_Ok b s sb p Hb Hpb).
  rewrite (effect_idle a) in Hea by done. injection Hea as <-.
  destruct (effect_stores b _ _ Hb Hbd Heb) as (v & -> & Heb').
  exists sb. split.
  - eapply (apply_after a _ _ p s sb sb); eauto.
    by rewrite (effect_idle a).
  - eapply (apply_after b _ _ p s sa sb); eauto.
Qed.

Lemma fromJSON_kind {LL : LeafLaws L} o d :
  wf o -> type o = UPDATE -> diff o = Some d ->
  (if bool_decide (propertyType o = Some PString)
   then TextOperation_fromJSON d else ArrayOperation_fromJSON d) = Some d.
Proof.
  intros Hwf Ht Hd.
  destruct (wf_update o Hwf Ht) as (d' & Hd' & [[Hx Hpt]|(Hx & Hy & Hpt)]);
    rewrite Hd in Hd'; injection Hd' as <-; rewrite Hpt.
  - rewrite bool_decide_eq_true_2 by done. by apply text_fromJSON_same.
  - rewrite bool_decide_eq_false_2 by done. by apply array_fromJSON_same.
Qed.

Ltac rule_result H :=
  unfold transform_delete_delete, transform_delete_update, transform_delete_set,
    transform_set_set, transform_update_update, delete_update_body,
    delete_set_body in H;
  repeat match type of H with
         | context [bool_decide ?P] =>
           first [ rewrite (bool_decide_eq_true_2 P) in H by congruence
                 | rewrite (bool_decide_eq_false_2 P) in H by congruence ]
         end;
  simpl in H.

Ltac side_NOP := rewrite apply_NOP by done.

(** The side that is applied after an entry was put under [p]: it finds
    that entry, and what it stores is put in its place. *)
Ltac side_after p s Hfrom Hto :=
  eapply (apply_after _ _ _ p s _ _);
    [simpl; congruence | simpl; done | exact Hfrom | | exact Hto];
  unfold effect; simpl;
  repeat match goal with
         | H : type ?o = _ |- context [type ?o] => rewrite H
         | H : diff ?o = _ |- context [diff ?o] => rewrite H
         end;
  simpl.

Lemma TP1_same_path {LL : LeafLaws L} a b a' b' s sa sb p rule :
  own_kind_only ->
  wf a -> wf b -> idleb a = false -> idleb b = false ->
  path a = Some p -> path b = Some p ->
  deletes_what_is_there a s ->
  apply a s = Ok sa -> apply b s = Ok sb ->
  __transform__ (Z.lor (CODE (type a)) (CODE (type b))) = Some rule ->
  rule a b = Ok (a', b') ->
  exists s', apply a' sb = Ok s' /\ apply b' sa = Ok s'.
Proof.
  intros Hown Hwa Hwb Hia Hib Hpa Hpb Hdel Happa Happb Hrule Hres.
  assert (type a <> NOP) as Hna by (intros E; unfold idleb in Hia; by rewrite E in Hia).
  assert (type b <> NOP) as Hnb by (intros E; unfold idleb in Hib; by rewrite E in Hib).
  apply (apply_Ok a s sa p Hna Hpa) in Happa as (ra & Era & Hsa).
  apply (apply_Ok b s sb p Hnb Hpb) in Happb as (rb & Erb & Hsb).
  unfold effect in Era, Erb. unfold idleb in Hia, Hib.
  destruct (type a) eqn:Ea; try done.
  - (* create *)
    destruct (type b) eqn:Eb; try done; cbn in Hrule; injection Hrule as <-;
      discriminate Hres.
  - (* delete *)
    specialize (Hdel Ea p Hpa). rewrite Hdel in Era, Erb.
    injection Era as <-.
    destruct (type b) eqn:Eb; try done; cbn in Hrule; injection Hrule as <-;
      try discriminate Hres.
    + rule_result Hres. injection Hres as <- <-. injection Erb as <-.
      exists sa. split; side_NOP; congruence.
    + destruct (wf_update b Hwb Eb) as (db & Hdb & _).
      rule_result Hres. rewrite Hdb in Hres, Erb. simpl in Hres, Erb.
      rewrite (fromJSON_kind b db) in Hres by done. simpl in Hres.
      destruct (leaf_apply db (val a)) as [v|]; [|done]. simpl in Hres, Erb.
      injection Hres as <- <-. injection Erb as <-.
      exists sb. split; [by side_NOP|].
      by side_after p s Hsa Hsb.
    + rule_result Hres. injection Hres as <- <-. injection Erb as <-.
      exists sb. split; [by side_NOP|].
      by side_after p s Hsa Hsb.
  - (* update *)
    destruct (wf_update a Hwa Ea) as (da & Hda & Hka).
    rewrite Hda in Era, Hia. simpl in Era.
    destruct (leaf_apply da (default JUndefined (s !! p))) as [va|] eqn:Hva; [|done].
    simpl in Era. injection Era as <-.
    destruct (type b) eqn:Eb; try done; cbn in Hrule; injection Hrule as <-;
      try discriminate Hres.
    + (* update, delete *)
      rule_result Hres. rewrite Hda in Hres. simpl in Hres.
      rewrite (fromJSON_kind a da) in Hres by done. simpl in Hres.
      destruct (leaf_apply da (val b)) as [v|]; [|done]. simpl in Hres.
      injection Hres as <- <-.
      destruct (s !! p); [|done]. injection Erb as <-.
      exists sb. split; [by side_NOP|].
      side_after p s Hsa Hsb. by rewrite ?Eb.
    + (* update, update *)
      destruct (wf_update b Hwb Eb) as (db & Hdb & Hkb).
      rewrite Hdb in Erb, Hib. simpl in Erb.
      destruct (leaf_apply db (default JUndefined (s !! p))) as [vb|] eqn:Hvb; [|done].
      simpl in Erb. injection Erb as <-.
      destruct (decide (propertyType a = propertyType b)) as [Hkind|Hkind];
        [|destruct (update_update_mismatch a b Hown Hwa Hwb Ea Eb Hkind) as [msg Hmsg];
          congruence].
      unfold transform_update_update in Hres. rewrite Hda, Hdb in Hres. simpl in Hres.
      destruct Hkb as [[Hxb Hptb]|(Hxb & Hyb & Hptb)]; rewrite Hptb in Hres, Hkind;
        destruct Hka as [[Hxa Hpta]|(Hxa & Hya & Hpta)]; try congruence.
      * rewrite bool_decide_eq_true_2 in Hres by done.
        rewrite !text_fromJSON_same in Hres by done. simpl in Hres.
        destruct (TextOperation_transform da db _) as [[ta tb]|] eqn:Ht; [|done].
        simpl in Hres. injection Hres as <- <-.
        destruct (text_TP1 _ _ _ _ _ _ _ _ Hxa Hxb Ht Hva Hvb) as (w & Hw1 & Hw2).
        destruct (DataObjectFacts.put_possible _ (Some w) _ _ _ Hsa) as [s' Hs'].
        exists s'. split.
        -- side_after p s Hsb Hs'. by rewrite ?Hw1.
        -- side_after p s Hsa Hs'. by rewrite ?Hw2.
      * rewrite bool_decide_eq_false_2 in Hres by done.
        rewrite !array_fromJSON_same in Hres by done. simpl in Hres.
        destruct (ArrayOperation_transform da db _) as [[ta tb]|] eqn:Ht; [|done].
        simpl in Hres. injection Hres as <- <-.
        destruct (array_TP1 _ _ _ _ _ _ _ _ Hya Hyb Ht Hva Hvb) as (w & Hw1 & Hw2).
        destruct (DataObjectFacts.put_possible _ (Some w) _ _ _ Hsa) as [s' Hs'].
        exists s'. split.
        -- side_after p s Hsb Hs'. by rewrite ?Hw1.
        -- side_after p s Hsa Hs'. by rewrite ?Hw2.
  - (* set *)
    injection Era as <-.
    destruct (type b) eqn:Eb; try done; cbn in Hrule; injection Hrule as <-;
      try discriminate Hres.
    + rule_result Hres. injection Hres as <- <-.
      destruct (s !! p); [|done]. injection Erb as <-.
      exists sb. split; [by side_NOP|].
      side_after p s Hsa Hsb. by rewrite ?Eb.
    + rule_result Hres. injection Hres as <- <-. injection Erb as <-.
      exists sb. split; [by side_NOP|].
      side_after p s Hsa Hsb. by rewrite ?Eb.
Qed.

Lemma idleb_idle o : type o <> NOP -> idleb o = true -> idle o.
Proof.
  unfold idleb, idle. intros Ht H.
  destruct (type o); try done. destruct (diff o) as [d|]; [|done]. eauto.
Qed.

Lemma idle_idleb o : idle o -> idleb o = true.
Proof. intros (Ht & d & Hd & Hn). unfold idleb. by rewrite Ht, Hd. Qed.

Lemma TP1_inplace {LL : LeafLaws L} a b a' b' s sa sb :
  own_kind_only ->
  wf a -> wf b -> apply a s = Ok sa -> apply b s = Ok sb ->
  deletes_what_is_there a s -> fit a b -> paths_fit a b ->
  transform a b {| inplace := true; no_conflict := false |} = Ok (a', b') ->
  exists s', apply a' sb = Ok s' /\ apply b' sa = Ok s'.
Proof.
  intros Hown Hwa Hwb Happa Happb Hdel Hfit Hpaths.
  rewrite transform_inplace_wf by done.
  destruct (decide (type a = NOP)) as [Ha|Ha].
  { unfold idleb at 1. rewrite Ha. simpl. intros [= <- <-].
    rewrite apply_NOP in Happa by done. injection Happa as <-.
    exists sb. split; [by apply apply_NOP | done]. }
  destruct (decide (type b = NOP)) as [Hb|Hb].
  { assert (idleb b = true) as -> by (unfold idleb; by rewrite Hb).
    rewrite orb_true_r. intros [= <- <-].
    rewrite apply_NOP in Happb by done. injection Happb as <-.
    exists sa. split; [done | by apply apply_NOP]. }
  destruct (wf_path a Hwa Ha) as [p Hp], (wf_path b Hwb Hb) as [q Hq].
  destruct (decide (p = q)) as [<-|Hpq].
  - assert (path a = path b) as Hsame by congruence.
    destruct (Hfit Hsame) as (Hda & Hdb).
    destruct (idleb a) eqn:Hia; simpl.
    { intros [= <- <-]. apply idleb_idle in Hia; [|done].
      eapply (apply_idle a b); eauto. intros Hd. by apply (Hdb Hd). }
    destruct (idleb b) eqn:Hib; simpl.
    { intros [= <- <-]. apply idleb_idle in Hib; [|done].
      destruct (apply_idle b a s sb sa p) as (s' & H1 & H2); eauto.
      intros Hd. by apply (Hda Hd). }
    rewrite Hsame, isEqual_refl.
    destruct (dispatch_complete (type a) (type b) Ha Hb) as [rule Hrule].
    rewrite Hrule. intros Hres.
    eapply (TP1_same_path a b); eauto.
  - assert (isEqual (path a) (path b) = false) as Hne.
    { unfold isEqual. apply bool_decide_eq_false_2. congruence. }
    rewrite Hne. intros Hres.
    assert (a' = a /\ b' = b) as [-> ->].
    { destruct (idleb a || idleb b); by injection Hres as <- <-. }
    destruct (Hpaths p q Hp Hq) as [?|Hap]; [done|].
    eapply apply_commute; eauto.
Qed.

Lemma clone_survivor {LL : LeafLaws L} o :
  wf o -> survives_clone o ->
  exists o1, clone o = Ok o1 /\ wf o1 /\
             (o1 = o \/ (type o = SET /\ o1 = set_original JUndefined o)).
Proof.
  intros Hwf Hs. destruct (decide (type o = SET)) as [Ht|Ht].
  - exists (set_original JUndefined o). split; [by apply clone_wf_set; auto|].
    split; [|by right].
    destruct o as [t p v d pt og]. simpl in Ht. subst t.
    revert Hwf. unfold wf, new. simpl.
    destruct p; [|done]. intros [= <- <-]. done.
  - exists o. split; [|by auto]. apply clone_wf_same; [apply clone_same|done..].
Qed.

Lemma transform_Ok_inv a b options r :
  transform a b options = Ok r ->
  exists a1 b1,
    (if inplace options then a1 = a /\ b1 = b
     else clone a = Ok a1 /\ clone b = Ok b1) /\
    transform a1 b1 {| inplace := true; no_conflict := false |} = Ok r.
Proof.
  unfold transform. destruct (no_conflict options && hasConflict a b); [done|].
  simpl. destruct (inplace options); simpl.
  - intros H. by exists a, b.
  - destruct (clone a) as [a1|]; simpl; [|done].
    destruct (clone b) as [b1|]; simpl; [|done].
    intros H. by exists a1, b1.
Qed.

(** C1, as amended.  TP1 for the pairwise transformation.  [a] and [b] are
    well formed and apply to [s]; a delete on the side of [a] holds the
    value [s] stores under its path; a delete does not meet an idle update
    of its path; the two paths are equal or neither leads through the
    other; and unless the transformation runs in place, the [val] of each
    set is one that [clone] carries over.  Then, whenever [transform]
    returns a pair, [a'] applies after [b], [b'] applies after [a], and the
    two states are equal.  The leaves are assumed to obey [LeafLaws] and to
    read back their own kind only. *)
Theorem transform_TP1 {LL : LeafLaws L} a b a' b' options s sa sb :
  own_kind_only ->
  wf a -> wf b -> apply a s = Ok sa -> apply b s = Ok sb ->
  deletes_what_is_there a s -> fit a b -> paths_fit a b ->
  (inplace options = false -> survives_clone a /\ survives_clone b) ->
  transform a b options = Ok (a', b') ->
  exists s', apply a' sb = Ok s' /\ apply b' sa = Ok s'.
Proof.
  intros Hown Hwa Hwb Happa Happb Hdel Hfit Hpaths Hslip Htr.
  destruct (transform_Ok_inv _ _ _ _ Htr) as (a1 & b1 & Hab & Hcore).
  destruct (inplace options).
  - destruct Hab as [-> ->]. by eapply (TP1_inplace a b a' b' s).
  - destruct Hab as [Hca Hcb]. destruct Hslip as [Hsa Hsb]; [done|].
    destruct (clone_survivor a Hwa Hsa) as (a2 & Ha2 & Hwa2 & Hea).
    destruct (clone_survivor b Hwb Hsb) as (b2 & Hb2 & Hwb2 & Heb).
    rewrite Ha2 in Hca. rewrite Hb2 in Hcb.
    injection Hca as ->. injection Hcb as ->.
    assert (apply a1 s = Ok sa) as Happa1
      by (destruct Hea as [->|[_ ->]]; exact Happa).
    assert (apply b1 s = Ok sb) as Happb1
      by (destruct Heb as [->|[_ ->]]; exact Happb).
    assert (deletes_what_is_there a1 s) as Hdel1
      by (destruct Hea as [->|[_ ->]]; exact Hdel).
    assert (fit a1 b1) as Hfit1
      by (destruct Hea as [->|[_ ->]], Heb as [->|[_ ->]]; exact Hfit).
    assert (paths_fit a1 b1) as Hpaths1
      by (destruct Hea as [->|[_ ->]], Heb as [->|[_ ->]]; exact Hpaths).
    by eapply (TP1_inplace a1 b1 a' b' s).
Qed.

End WithLeaves.

End ObjectOperationFacts.

(** * The text and array operations of the examples obey the laws *)

Module LeavesFacts.
Import Leaves.

Lemma insert_at_app {A} (l1 x r : list A) :
  insert_at (length l1) x (l1 ++ r) = Some (l1 ++ x ++ r).
Proof.
  unfold insert_at. rewrite bool_decide_eq_true_2 by (rewrite length_app; lia).
  by rewrite take_app_length, drop_app_length.
Qed.

Lemma insert_at_Some {A} pos (x l l' : list A) :
  insert_at pos x l = Some l' ->
  exists l1 r, l = l1 ++ r /\ length l1 = pos /\ l' = l1 ++ x ++ r.
Proof.
  unfold insert_at. case_bool_decide; [|done]. intros [= <-].
  exists (take pos l), (drop pos l). rewrite take_drop, length_take. split_and!; [done|lia|done].
Qed.

(** Two insertions into one list, the one at the lower position first. *)
Lemma insert_at_converge {A} pa pb (xa xb l la lb : list A) :
  pa <= pb ->
  insert_at pa xa l = Some la -> insert_at pb xb l = Some lb ->
  exists w, insert_at pa xa lb = Some w /\
            insert_at (pb + length xa) xb la = Some w.
Proof.
  intros Hle Ha Hb.
  apply insert_at_Some in Ha as (l1 & r & -> & <- & ->).
  apply insert_at_Some in Hb as (l12 & l3 & Hl & <- & ->).
  assert (exists l2, l12 = l1 ++ l2 /\ r = l2 ++ l3) as (l2 & -> & ->).
  { exists (drop (length l1) l12).
    pose proof (f_equal (take (length l1)) Hl) as Ht.
    pose proof (f_equal (drop (length l1)) Hl) as Hd.
    rewrite take_app_length, take_app_le in Ht by lia.
    rewrite drop_app_length, drop_app_le in Hd by lia.
    split; [|done]. rewrite Ht at 1. by rewrite take_drop. }
  exists (l1 ++ xa ++ l2 ++ xb ++ l3). split.
  - rewrite <- (assoc_L (++) l1 l2). apply insert_at_app.
  - replace (length (l1 ++ l2) + length xa) with (length (l1 ++ xa ++ l2))
      by (rewrite !length_app; lia).
    replace (l1 ++ xa ++ l2 ++ l3) with ((l1 ++ xa ++ l2) ++ l3)
      by (by rewrite <- !(assoc_L (++))).
    rewrite insert_at_app. by rewrite <- !(assoc_L (++)).
Qed.

Lemma length_list_ascii_of_string s :
  length (list_ascii_of_string s) = String.length s.
Proof. induction s; simpl; congruence. Qed.

Lemma apply_TInsert pos str v w :
  apply (TInsert pos str) v = Some w ->
  exists l l', v = JStr (string_of_list_ascii l) /\ w = JStr (string_of_list_ascii l') /\
               insert_at pos (list_ascii_of_string str) l = Some l'.
Proof.
  destruct v; try done. simpl.
  destruct (insert_at _ _ _) as [l'|] eqn:H; [|done]. intros [= <-].
  exists (list_ascii_of_string s), l'. by rewrite string_of_list_ascii_of_string.
Qed.

Lemma apply_TInsert_list pos str l :
  apply (TInsert pos str) (JStr (string_of_list_ascii l))
  = (fun l' => JStr (string_of_list_ascii l')) <$> insert_at pos (list_ascii_of_string str) l.
Proof. simpl. by rewrite list_ascii_of_string_of_list_ascii. Qed.

Lemma apply_AInsert pos x v w :
  apply (AInsert pos x) v = Some w ->
  exists l l', v = JArr l /\ w = JArr l' /\ insert_at pos [x] l = Some l'.
Proof.
  destruct v; try done. simpl.
  destruct (insert_at _ _ _) as [l'|] eqn:H; [|done]. intros [= <-]. eauto.
Qed.

Lemma leaves_own_kind_only : @ObjectOperation.own_kind_only leaves.
Proof. intros []; split; done. Qed.

Lemma leaves_laws : LeafLaws leaves.
Proof.
  split.
  - done.
  - intros []; done.
  - intros []; done.
  - intros [] v; done.
  - intros x y x' y' options v vx vy Hx Hy Ht Hvx Hvy.
    destruct x as [|pa sa|pa sa| | |], y as [|pb sb|pb sb| | |]; try done;
      simpl in Ht; try (injection Ht as <- <-; simpl in *; simplify_eq; by eauto).
    apply apply_TInsert in Hvx as (l & la & -> & -> & Ha).
    apply apply_TInsert in Hvy as (l0 & lb & Hl & -> & Hb).
    injection Hl as Hl. apply (f_equal list_ascii_of_string) in Hl.
    rewrite !list_ascii_of_string_of_list_ascii in Hl. subst l0.
    case_bool_decide; injection Ht as <- <-; rewrite !apply_TInsert_list.
    + destruct (insert_at_converge pa pb _ _ l la lb ltac:(lia) Ha Hb) as (w & H1 & H2).
      rewrite length_list_ascii_of_string in H2. rewrite H1, H2. eauto.
    + destruct (insert_at_converge pb pa _ _ l lb la ltac:(lia) Hb Ha) as (w & H1 & H2).
      rewrite length_list_ascii_of_string in H2. rewrite H1, H2. eauto.
  - intros x y x' y' options v vx vy Hx Hy Ht Hvx Hvy.
    destruct x as [| | | |pa xa|pa xa], y as [| | | |pb xb|pb xb]; try done;
      simpl in Ht; try (injection Ht as <- <-; simpl in *; simplify_eq; by eauto).
    apply apply_AInsert in Hvx as (l & la & -> & -> & Ha).
    apply apply_AInsert in Hvy as (l0 & lb & Hl & -> & Hb).
    injection Hl as <-.
    case_bool_decide; injection Ht as <- <-; simpl.
    + destruct (insert_at_converge pa pb _ _ l la lb ltac:(lia) Ha Hb) as (w & H1 & H2).
      simpl in H2. rewrite H1, H2. eauto.
    + destruct (insert_at_converge pb pa _ _ l lb la ltac:(lia) Hb Ha) as (w & H1 & H2).
      simpl in H2. rewrite H1, H2. eauto.
Qed.
End LeavesFacts.

(** * Properties of the hub *)

Module HubFacts.

Import Hub.

Section WithDocument.

Context {Doc Change : Type}.
Variable doc_apply : Doc -> Change -> option Doc.
Variable change_clone : Change -> Change.
Variable transformInplace : Change -> Change -> option (Change * Change).

#[local] Abbreviation StubHub := (@StubHub Doc Change).
#[local] Abbreviation commit := (commit doc_apply change_clone transformInplace).
#[local] Abbreviation _onMessage := (_onMessage doc_apply change_clone transformInplace).
#[local] Abbreviation reachable := (reachable doc_apply change_clone transformInplace).
#[local] Abbreviation later := (later doc_apply change_clone transformInplace).
#[local] Abbreviation counted := (@counted Doc Change).

Implicit Types h : StubHub.

Lemma splice_at_end {A} (l : list A) : splice l (Z.of_nat (length l)) = ([], l).
Proof.
  unfold splice.
  destruct (Z.ltb_spec (Z.of_nat (length l)) 0) as [Hneg|_]; [lia|].
  rewrite Z.min_id, Nat2Z.id. by rewrite drop_all, firstn_all.
Qed.

(** Sending to a list of sockets appends one envelope per socket. *)
Lemma send_all h (sockets : list ServerWebSocket) (data : list (@Item Change)) :
  foldl (fun h socket => send h socket data) h sockets
  = mkHub (doc h) (doc_id h) (doc_version h) (changes h) (clients h)
          (messageQueue h ++ map (fun socket => envelope socket data) sockets).
Proof.
  revert h. induction sockets as [|socket sockets IH]; intros h; simpl.
  - rewrite app_nil_r. by destruct h.
  - rewrite IH. simpl. by rewrite <- app_assoc.
Qed.

Lemma commit_counted h ws change version h' :
  counted h -> commit h ws change version = Some h' ->
  counted h' /\ doc_version h' = (doc_version h + 1)%Z /\
  exists change', changes h' = changes h ++ [change'].
Proof.
  unfold counted, commit. intros Hc.
  destruct (doc_version h =? version)%Z.
  - unfold _applyChange. destruct (doc_apply (doc h) change) as [doc'|]; [|done].
    simpl. rewrite send_all. intros [= <-]. simpl.
    rewrite length_app. simpl. split; [lia|]. split; [done|]. eauto.
  - unfold getChangesSinceVersion.
    replace (doc_version h - 1)%Z with (Z.of_nat (length (changes h))) by lia.
    rewrite splice_at_end. simpl.
    unfold _applyChange. simpl.
    destruct (doc_apply (doc h) (change_clone change)) as [doc'|]; [|done].
    simpl. rewrite send_all. intros [= <-]. simpl.
    rewrite length_app. simpl. split; [lia|]. split; [done|]. eauto.
Qed.

Lemma message_counted h ws data h' :
  counted h -> _onMessage h ws data = Some h' ->
  counted h' /\ (doc_version h <= doc_version h')%Z /\
  changes h `prefix_of` changes h'.
Proof.
  intros Hc. destruct data as [documentId version|change version|documentId]; simpl.
  - intros [= <-]. split; [done|]. split; [simpl; lia|done].
  - intros Hcommit.
    destruct (commit_counted _ _ _ _ _ Hc Hcommit) as (Hc' & Hv & change' & Hl).
    split; [done|]. split; [lia|]. rewrite Hl. by apply prefix_app_r.
  - done.
Qed.

Lemma reachable_counted h : reachable h -> counted h.
Proof.
  induction 1 as [doc0 messageQueue0|h ws data h' _ IH Hstep|h clients' messageQueue' _ IH].
  - done.
  - by destruct (message_counted _ _ _ _ IH Hstep).
  - exact IH.
Qed.

(** C4. Between the handling of two messages the version is one more than
    the length of the log; and from any state the hub reaches, whatever
    [open], [commit] and [close] messages are handled next, the version
    does not go down and the log is only extended at its end. *)
Theorem hub_version_counts_log h h' :
  reachable h -> later h h' ->
  doc_version h = (1 + Z.of_nat (length (changes h)))%Z /\
  doc_version h' = (1 + Z.of_nat (length (changes h')))%Z /\
  (doc_version h <= doc_version h')%Z /\
  changes h `prefix_of` changes h'.
Proof.
  intros Hr Hl. pose proof (reachable_counted h Hr) as Hc.
  split; [exact Hc|].
  induction Hl as [h|h h1 ws data h' _ IH Hstep|h h1 clients' messageQueue' _ IH].
  - split; [exact Hc|]. split; [lia|done].
  - destruct (IH Hr Hc) as (Hc1 & Hv & Hp).
    destruct (message_counted _ _ _ _ Hc1 Hstep) as (Hc' & Hv' & Hp').
    split; [exact Hc'|]. split; [lia|]. by etrans.
  - destruct (IH Hr Hc) as (Hc1 & Hv & Hp). done.
Qed.

(** C5, as amended.  On the fast path the hub applies the change, appends
    it to the log, adds one to the version, sends [commitDone] with the new
    version to the committing socket and then, to every other client, an
    [update] whose payload is the change followed by the new version. *)
Theorem commit_fast_path h ws change doc' :
  doc_apply (doc h) change = Some doc' ->
  commit h ws change (doc_version h)
  = Some (mkHub doc' (doc_id h) (doc_version h + 1) (changes h ++ [change]) (clients h)
            (messageQueue h
             ++ [envelope ws [IStr "commitDone"; INum (doc_version h + 1)]]
             ++ map (fun socket =>
                       envelope socket
                         [IStr "update"; IChange change; INum (doc_version h + 1)])
                    (filter (fun client => __id__ client <> __id__ ws) (clients h)))).
Proof.
  intros Happly. unfold commit, _applyChange.
  rewrite Z.eqb_refl, Happly. simpl. rewrite send_all. simpl.
  unfold getCollaboratorSockets. simpl. by rewrite <- app_assoc.
Qed.

(** What the other branch of [commit] does in a state the hub reaches: the
    log is read from the version of the hub, so nothing is missed and the
    change is appended as it came; the committing socket is sent
    [['commitDone']] and nothing else. *)
Lemma commit_other_path h ws change version doc' :
  reachable h -> doc_version h <> version ->
  doc_apply (doc h) (change_clone change) = Some doc' ->
  commit h ws change version
  = Some (mkHub doc' (doc_id h) (doc_version h + 1) (changes h ++ [change_clone change])
            (clients h)
            ((messageQueue h
              ++ map (fun socket =>
                        envelope socket
                          [IStr "update"; INum (doc_version h + 1);
                           IChange (change_clone change)])
                     (filter (fun client => __id__ client <> __id__ ws) (clients h)))
             ++ [envelope ws [IStr "commitDone"]])).
Proof.
  intros Hr Hv Happly. pose proof (reachable_counted h Hr) as Hc.
  unfold commit. apply Z.eqb_neq in Hv. rewrite Hv.
  unfold getChangesSinceVersion.
  replace (doc_version h - 1)%Z with (Z.of_nat (length (changes h)))
    by (unfold counted in Hc; lia).
  rewrite splice_at_end. simpl. unfold _applyChange. simpl. rewrite Happly.
  simpl. rewrite send_all. done.
Qed.

End WithDocument.

End HubFacts.

(** * The operations at work *)

Module Runs.

Import ObjectOperation ObjectOperationFacts Examples.

#[local] Existing Instance Leaves.leaves.

Lemma maps_differ (s1 s2 : DataObject.t) (p : Path) :
  s1 !! p <> s2 !! p -> s1 <> s2.
Proof. intros Hne Heq. apply Hne. by rewrite Heq. Qed.

(** The two insertions into ["Hello"] converge on [">Hello!"]. *)
Lemma transform_TP1_witness :
  transform bang lead default_options
  = Ok (text_update title (Leaves.TInsert 6 "!"), lead) /\
  exists s',
    apply (text_update title (Leaves.TInsert 6 "!")) (only "title" (JStr ">Hello")) = Ok s' /\
    apply lead (only "title" (JStr "Hello!")) = Ok s'.
Proof.
  split; [reflexivity|].
  apply (transform_TP1 (LL := LeavesFacts.leaves_laws)
           bang lead _ _ default_options hello).
  - exact LeavesFacts.leaves_own_kind_only.
  - reflexivity.
  - reflexivity.
  - reflexivity.
  - reflexivity.
  - intros H; discriminate H.
  - intros _. split; intros H; discriminate H.
  - intros p q [= <-] [= <-]. left. reflexivity.
  - intros _. split; intros H; discriminate H.
  - reflexivity.
Defined.

(** C1 fails as stated: a delete applies to any state that has its path,
    whatever value it holds; against an update of that path the two orders
    then end in different documents. *)
Lemma transform_TP1_fails_on_stale_delete :
  LeafLaws Leaves.leaves /\ own_kind_only /\ wf stale_delete /\ wf append_d /\
  exists a' b' sa sb s1 s2,
    apply stale_delete abc = Ok sa /\ apply append_d abc = Ok sb /\
    transform stale_delete append_d default_options = Ok (a', b') /\
    apply a' sb = Ok s1 /\ apply b' sa = Ok s2 /\ s1 <> s2.
Proof.
  split; [exact LeavesFacts.leaves_laws|].
  split; [exact LeavesFacts.leaves_own_kind_only|].
  split; [reflexivity|]. split; [reflexivity|].
  eexists _, _, _, _, _, _.
  split; [reflexivity|]. split; [reflexivity|]. split; [reflexivity|].
  split; [reflexivity|]. split; [reflexivity|].
  apply (maps_differ _ _ body). vm_compute. discriminate.
Qed.

(** The same happens to a delete and an update that does nothing: the
    pair is handed back as it is, and the update, applied after the delete,
    stores [undefined] under the path. *)
Lemma transform_TP1_fails_on_idle_update :
  exists a' b' sa sb s1 s2,
    apply (delete body (JStr "abc")) abc = Ok sa /\ apply idle_update abc = Ok sb /\
    transform (delete body (JStr "abc")) idle_update default_options = Ok (a', b') /\
    apply a' sb = Ok s1 /\ apply b' sa = Ok s2 /\ s1 <> s2.
Proof.
  eexists _, _, _, _, _, _.
  split; [reflexivity|]. split; [reflexivity|]. split; [reflexivity|].
  split; [reflexivity|]. split; [reflexivity|].
  apply (maps_differ _ _ body). vm_compute. discriminate.
Qed.

(** And to a set whose [val] is false in a condition, once it is cloned:
    the clone stores [undefined] where the set stores 0. *)
Lemma transform_TP1_fails_after_clone :
  exists a' b' sa sb s1 s2,
    apply (blank NOP) (only "x" (JStr "a")) = Ok sa /\
    apply set_zero (only "x" (JStr "a")) = Ok sb /\
    transform (blank NOP) set_zero default_options = Ok (a', b') /\
    apply a' sb = Ok s1 /\ apply b' sa = Ok s2 /\ s1 <> s2.
Proof.
  eexists _, _, _, _, _, _.
  split; [reflexivity|]. split; [reflexivity|]. split; [reflexivity|].
  split; [reflexivity|]. split; [reflexivity|].
  apply (maps_differ _ _ x). vm_compute. discriminate.
Qed.

(** And to operations one of whose paths leads through the other.  The
    delete of a node, which holds the node as it is stored, and an update
    of a property of that node have different paths and are handed back as
    they are: the delete applies after the update, the update finds nothing
    to apply to after the delete. *)
Lemma transform_TP1_fails_on_nested_paths :
  wf delete_node /\ wf append_content /\
  deletes_what_is_there delete_node with_node /\
  exists sa sb s1 msg,
    apply delete_node with_node = Ok sa /\
    apply append_content with_node = Ok sb /\
    transform delete_node append_content default_options
    = Ok (delete_node, append_content) /\
    apply delete_node sb = Ok s1 /\
    apply append_content sa = Throw (Error msg).
Proof.
  split; [reflexivity|]. split; [reflexivity|].
  split; [intros _ p [= <-]; reflexivity|].
  eexists _, _, _, _.
  split; [reflexivity|]. split; [reflexivity|]. split; [reflexivity|].
  split; reflexivity.
Qed.

(** Likewise a set of the node and a set of a property of it: both orders
    are defined and end in different documents. *)
Lemma transform_TP1_diverges_on_nested_sets :
  wf replace_node /\ wf set_content /\
  exists sa sb s1 s2,
    apply replace_node with_node = Ok sa /\
    apply set_content with_node = Ok sb /\
    transform replace_node set_content {| inplace := true; no_conflict := false |}
    = Ok (replace_node, set_content) /\
    apply replace_node sb = Ok s1 /\ apply set_content sa = Ok s2 /\
    s1 <> s2.
Proof.
  split; [reflexivity|]. split; [reflexivity|].
  eexists _, _, _, _.
  split; [reflexivity|]. split; [reflexivity|]. split; [reflexivity|].
  split; [reflexivity|]. split; [reflexivity|].
  apply (maps_differ _ _ n1_content). vm_compute. discriminate.
Qed.

(** A set from ["old"] to ["new"] and back. *)
Lemma invert_undoes_apply_witness :
  exists o',
    invert set_new = Ok o' /\
    apply o' (only "x" (JStr "new")) = Ok (only "x" (JStr "old")).
Proof.
  apply (invert_undoes_apply set_new (only "x" (JStr "old")) (only "x" (JStr "new"))).
  - reflexivity.
  - reflexivity.
  - reflexivity.
Defined.

(** C2 fails as stated: a set applies to any state, and its inverse puts
    back the [original] it holds, whatever the state held. *)
Lemma invert_restores_the_recorded_value :
  wf set_new /\
  exists s1 o' s2,
    apply set_new other = Ok s1 /\ invert set_new = Ok o' /\
    apply o' s1 = Ok s2 /\ s2 <> other.
Proof.
  split; [reflexivity|]. eexists _, _, _.
  split; [reflexivity|]. split; [reflexivity|]. split; [reflexivity|].
  apply (maps_differ _ _ x). vm_compute. discriminate.
Qed.

(** Likewise a create applies to a state that holds a value under its path
    already, and its inverse then deletes that path. *)
Lemma invert_loses_overwritten_value :
  wf create_two /\
  exists s1 o' s2,
    apply create_two one = Ok s1 /\ invert create_two = Ok o' /\
    apply o' s1 = Ok s2 /\ s2 <> one.
Proof.
  split; [reflexivity|]. eexists _, _, _.
  split; [reflexivity|]. split; [reflexivity|]. split; [reflexivity|].
  apply (maps_differ _ _ x). vm_compute. discriminate.
Qed.

(** C6 on the code: [clone] leaves [original] behind, drops a [val] that is
    false in a condition, and fails on a create that holds such a [val]
    (as rule D-S makes one from a set). *)
Lemma clone_loses_fields :
  Set_ x (JStr "old") (JStr "new") = Ok set_new /\
  clone set_new = Ok (set x JUndefined (JStr "new")) /\
  Set_ x (JStr "a") (JNum 0) = Ok set_zero /\
  clone set_zero = Ok (set x JUndefined JUndefined) /\
  transform (delete x (JStr "a")) set_zero {| inplace := true; no_conflict := false |}
  = Ok (set_type NOP (delete x (JStr "a")), create x (JNum 0)) /\
  clone (create x (JNum 0)) = Throw (Error "Invalid data: value is missing.").
Proof. repeat split; reflexivity. Qed.



(** Rule U-U on the two insertions into the title, and on a text and an
    array insertion of one path. *)
Lemma rule_update_update_witness :
  transform_update_update bang lead
  = Ok (text_update title (Leaves.TInsert 6 "!"), lead) /\
  transform bang lead default_options = transform_update_update bang lead /\
  exists msg, transform text_insert array_insert default_options = Throw (Error msg).
Proof.
  destruct (rule_update_update bang lead (Leaves.TInsert 5 "!") (Leaves.TInsert 0 ">")
              eq_refl eq_refl) as [H1 H2].
  destruct (H2 (fun d => eq_refl) eq_refl eq_refl eq_refl eq_refl eq_refl false)
    as [H3 _].
  destruct (H3 eq_refl eq_refl) as [H4 _].
  destruct (rule_update_update text_insert array_insert
              (Leaves.TInsert 0 "x") (Leaves.AInsert 0 (JNum 1)) eq_refl eq_refl)
    as [_ H5].
  destruct (H5 (fun d => eq_refl) eq_refl eq_refl eq_refl eq_refl eq_refl false)
    as [H6 _].
  destruct (H6 eq_refl eq_refl) as [_ H7].
  split; [exact H1|]. split; [exact H4|].
  apply H7; [exact LeavesFacts.leaves_own_kind_only | discriminate].
Defined.

(** C8 fails as stated: a text update that does nothing and an array
    update of the same path have diffs of different kinds, and are handed
    back as they are, in either order, without an error. *)
Lemma update_update_mismatch_is_handed_back :
  LeafLaws Leaves.leaves /\ own_kind_only /\
  wf idle_text /\ wf array_insert /\
  path idle_text = path array_insert /\
  propertyType idle_text = Some PString /\
  propertyType array_insert = Some PArray /\
  transform idle_text array_insert default_options = Ok (idle_text, array_insert) /\
  transform array_insert idle_text default_options = Ok (array_insert, idle_text).
Proof.
  split; [exact LeavesFacts.leaves_laws|].
  split; [exact LeavesFacts.leaves_own_kind_only|].
  repeat split; reflexivity.
Qed.

(** An idle update against an insertion into the same text. *)
Lemma Conflict_precedes_NOP_shortcut_witness :
  transform idle_update append_d {| inplace := false; no_conflict := true |}
  = Throw (Conflict idle_update append_d) /\
  transform idle_update append_d {| inplace := false; no_conflict := false |}
  = Ok (idle_update, append_d).
Proof.
  destruct (Conflict_precedes_NOP_shortcut idle_update append_d false)
    as (H1 & H2 & _).
  - reflexivity.
  - reflexivity.
  - reflexivity.
  - reflexivity.
  - reflexivity.
  - reflexivity.
  - left. reflexivity.
  - split; [exact H1 | exact H2].
Defined.

End Runs.

(** * The hub at work *)

Module HubRuns.

Import Hub HubExamples HubFacts.

Lemma hub1_reachable : reachable doc_apply change_clone transformInplace hub1.
Proof.
  apply (reachable_transport _ _ _ (Hub.new [] []) [alice; bob] []).
  apply reachable_new.
Qed.

Lemma hub2_reachable : reachable doc_apply change_clone transformInplace hub2.
Proof.
  pose proof hub1_reachable as H1.
  assert (exists h, _onMessage doc_apply change_clone transformInplace
                      hub1 bob (MsgCommit "c1"%string 1) = Some h /\
                    doc h = ["c1"%string] /\ doc_id h = "doc-15"%string /\
                    doc_version h = 2%Z /\
                    changes h = ["c1"%string]) as (h & Hh & Hd & Hi & Hv & Hc).
  { eexists. split; [reflexivity|]. repeat split. }
  pose proof (reachable_message _ _ _ _ _ _ _ H1 Hh) as H2.
  apply (reachable_transport _ _ _ _ [alice; bob] []) in H2.
  rewrite Hd, Hi, Hv, Hc in H2. exact H2.
Qed.

(** From the new hub to the hub after one commit. *)
Lemma hub_version_counts_log_witness :
  doc_version hub1 = 1%Z /\ doc_version hub2 = 2%Z /\
  changes hub1 `prefix_of` changes hub2.
Proof.
  assert (later doc_apply change_clone transformInplace hub1 hub2) as Hl.
  { assert (exists h, _onMessage doc_apply change_clone transformInplace
                        hub1 bob (MsgCommit "c1"%string 1) = Some h /\
                      doc h = ["c1"%string] /\ doc_id h = "doc-15"%string /\
                      doc_version h = 2%Z /\
                      changes h = ["c1"%string]) as (h & Hh & Hd & Hi & Hv & Hc).
    { eexists. split; [reflexivity|]. repeat split. }
    pose proof (later_message _ _ _ _ _ _ _ _ (later_now _ _ _ hub1) Hh) as H2.
    apply (later_transport _ _ _ _ _ [alice; bob] []) in H2.
    rewrite Hd, Hi, Hv, Hc in H2. exact H2. }
  destruct (hub_version_counts_log doc_apply change_clone transformInplace
              hub1 hub2 hub1_reachable Hl) as (H1 & H2 & _ & H4).
  split; [exact H1|]. split; [exact H2|exact H4].
Defined.

(** Alice commits ["c1"] at version 1: bob is sent the change, then the
    version. *)
Lemma commit_fast_path_witness :
  commit hub1 alice "c1"%string 1
  = Some (mkHub ["c1"%string] "doc-15" 2 ["c1"%string] [alice; bob]
            [envelope alice [IStr "commitDone"; INum 2];
             envelope bob [IStr "update"; IChange "c1"%string; INum 2]]).
Proof.
  exact (commit_fast_path doc_apply change_clone transformInplace
           hub1 alice "c1"%string ["c1"%string] eq_refl).
Defined.

(** C5 fails as stated: no [update] with the version before the change is
    sent to bob. *)
Lemma commit_fast_path_update_payload :
  exists h',
    commit hub1 alice "c1"%string 1 = Some h' /\
    messageQueue h'
    = [envelope alice [IStr "commitDone"; INum 2];
       envelope bob [IStr "update"; IChange "c1"%string; INum 2]] /\
    envelope bob [IStr "update"; INum 2; IChange "c1"%string] ∉ messageQueue h'.
Proof.
  eexists. split; [reflexivity|]. split; [reflexivity|].
  simpl. intros Hin. repeat (apply elem_of_cons in Hin as [Hin|Hin]; [discriminate Hin|]).
  by apply elem_of_nil in Hin.
Qed.

(** C3 on the code: alice, who knows version 1, commits ["c2"] to the hub
    at version 2.  Nothing is taken from the log, so ["c2"] is appended
    without having been transformed against ["c1"], and alice is sent
    [['commitDone']] alone.  Asked for the changes since version 1, the hub
    does return ["c1"], and removes it from its log. *)
Lemma commit_of_a_late_client :
  commit hub2 alice "c2"%string 1
  = Some (mkHub ["c1"; "c2"]%string "doc-15" 3 ["c1"; "c2"]%string [alice; bob]
            [envelope bob [IStr "update"; INum 3; IChange "c2"%string];
             envelope alice [IStr "commitDone"]]) /\
  getChangesSinceVersion hub2 1
  = (["c1"%string], mkHub ["c1"%string] "doc-15" 2 [] [alice; bob] []).
Proof. split; reflexivity. Qed.

End HubRuns.

(** * More about the object operations *)

Module ObjectOperationMore.

Import ObjectOperation ObjectOperationTerms ObjectOperationFacts.

Section WithLeaves.

Context {L : LeafOT}.

Implicit Types a b o : ObjectOperation.

(** X1. What the constructor builds is well formed: handed back to the
    constructor it comes out unchanged. *)
Theorem new_builds_wf data o : new data = Ok o -> wf o.
Proof.
  unfold wf, new. destruct data as [t p v d pt og]. simpl.
  destruct t; simpl.
  - by intros [= <-].
  - destruct p as [p|]; [|done]. destruct (truthy v) eqn:Hv; [|done].
    intros [= <-]. simpl. by rewrite Hv.
  - destruct p as [p|]; [|done]. destruct (truthy v) eqn:Hv; [|done].
    intros [= <-]. simpl. by rewrite Hv.
  - destruct p as [p|]; [|done]. destruct d as [d|]; [|done].
    destruct (_isTextOperation d) eqn:Hx.
    + intros [= <-]. simpl. by rewrite Hx.
    + destruct (_isArrayOperation d) eqn:Hy; [|done].
      intros [= <-]. simpl. by rewrite Hx, Hy.
  - destruct p as [p|]; [|done]. by intros [= <-].
Qed.

(** On one of the five tags the constructor throws exactly when the tag is
    not NOP and the path is missing, or a create or delete has a [val] that
    is false in a condition, or an update has no diff or a diff that is
    neither a text nor an array operation. *)
Lemma new_Throw_iff data :
  (exists e, new data = Throw e) <->
  type data <> NOP /\
  (path data = None \/
   ((type data = CREATE \/ type data = DELETE) /\ truthy (val data) = false) \/
   (type data = UPDATE /\
    (diff data = None \/
     exists d, diff data = Some d /\
               _isTextOperation d = false /\ _isArrayOperation d = false))).
Proof.
  unfold new. destruct data as [t p v d pt og]. simpl.
  destruct t; simpl.
  - split; [intros [e He]; discriminate He | intros [H _]; done].
  - destruct p as [p|]; [|split; [intros _; split; [done|]; by left | by eauto]].
    destruct (truthy v); split.
    + intros [e He]; discriminate He.
    + intros (_ & [H|[[_ H]|[H _]]]); discriminate H.
    + intros _. split; [done|]. right. left. auto.
    + eauto.
  - destruct p as [p|]; [|split; [intros _; split; [done|]; by left | by eauto]].
    destruct (truthy v); split.
    + intros [e He]; discriminate He.
    + intros (_ & [H|[[_ H]|[H _]]]); discriminate H.
    + intros _. split; [done|]. right. left. auto.
    + eauto.
  - destruct p as [p|]; [|split; [intros _; split; [done|]; by left | by eauto]].
    destruct d as [d|]; [|split; [intros _; split; [done|]; right; right; by auto | by eauto]].
    destruct (_isTextOperation d) eqn:Hx.
    { split; [intros [e He]; discriminate He|].
      intros (_ & [H|[[[H|H] _]|(_ & [H|(d' & H & Hx' & _)])]]);
        try discriminate H. injection H as <-. congruence. }
    destruct (_isArrayOperation d) eqn:Hy.
    { split; [intros [e He]; discriminate He|].
      intros (_ & [H|[[[H|H] _]|(_ & [H|(d' & H & _ & Hy')])]]);
        try discriminate H. injection H as <-. congruence. }
    split; [|eauto]. intros _. split; [done|]. right. right. split; [done|].
    right. eauto.
  - destruct p as [p|]; [|split; [intros _; split; [done|]; by left | by eauto]].
    split; [intros [e He]; discriminate He|].
    intros (_ & [H|[[[H|H] _]|[H _]]]); discriminate H.
Qed.

(** X2. The constructor throws exactly when its argument is missing, or
    the [type] is false in a condition (missing, or the empty string), or
    the [type] is none of the five tags, or the tag is one other than NOP
    and the path is missing, or a create or delete has a [val] that is
    false in a condition, or an update has no diff or a diff that is
    neither a text nor an array operation. *)
Theorem new_throws_iff (data : option Data) :
  (exists e, construct data = Throw e) <->
  data = None \/
  exists d, data = Some d /\
    (truthy (data_type d) = false \/
     match tag_of (data_type d) with
     | None => True
     | Some t =>
       t <> NOP /\
       (data_path d = None \/
        ((t = CREATE \/ t = DELETE) /\ truthy (data_val d) = false) \/
        (t = UPDATE /\
         (data_diff d = None \/
          exists l, data_diff d = Some l /\
                    _isTextOperation l = false /\ _isArrayOperation l = false)))
     end).
Proof.
  destruct data as [d|]; [|split; [by left | by eauto]].
  unfold construct. split.
  - intros Hthrow. right. exists d. split; [done|].
    destruct (truthy (data_type d)); [|by left]. right.
    destruct (tag_of (data_type d)) as [t|]; [|done].
    by apply new_Throw_iff in Hthrow.
  - intros [H|(d' & [= <-] & H)]; [done|].
    destruct (truthy (data_type d)); [|by eauto].
    destruct H as [H|H]; [done|].
    destruct (tag_of (data_type d)) as [t|]; [by apply new_Throw_iff|].
    destruct (data_path d); by eauto.
Qed.


(** Shape of a well-formed operation, tag by tag. *)
Lemma wf_shape o :
  wf o ->
  match type o with
  | NOP => o = blank NOP
  | CREATE | DELETE =>
    exists p, o = mkOp (type o) (Some p) (val o) None None JUndefined /\
              truthy (val o) = true
  | UPDATE =>
    exists p d,
      o = mkOp UPDATE (Some p) JUndefined (Some d)
               (Some (if _isTextOperation d then PString else PArray)) JUndefined /\
      (_isTextOperation d = true \/ _isArrayOperation d = true)
  | SET => exists p, o = mkOp SET (Some p) (val o) None None (original o)
  end.
Proof.
  unfold wf, new. destruct o as [t p v d pt og]. simpl.
  destruct t; simpl.
  - by intros [= <- <- <- <- <-].
  - destruct p as [p|]; [|done]. destruct (truthy v); [|done].
    intros [= <- <- <-]. eauto.
  - destruct p as [p|]; [|done]. destruct (truthy v); [|done].
    intros [= <- <- <-]. eauto.
  - destruct p as [p|]; [|done]. destruct d as [d|]; [|done].
    destruct (_isTextOperation d) eqn:Hx.
    + intros [= <- <- <-]. exists p, d. rewrite Hx. auto.
    + destruct (_isArrayOperation d) eqn:Hy; [|done].
      intros [= <- <- <-]. exists p, d. rewrite Hx. auto.
  - destruct p as [p|]; [|done]. intros [= <- <-]. eauto.
Qed.

(** X3. JSON round trip: [fromJSON] of the [toJSON] of a well-formed
    operation is that operation, when the leaf module named by the written
    [propertyType] reads the JSON of the diff back. *)
Theorem fromJSON_toJSON o :
  wf o ->
  (forall d, diff o = Some d -> leaf_reads_back d) ->
  exists data, toJSON o = Ok data /\ fromJSON data = Ok o.
Proof.
  intros Hwf Hleaf. pose proof (wf_shape o Hwf) as Hs.
  unfold toJSON, fromJSON.
  destruct (type o) eqn:Et.
  - subst o. eexists. split; [done|]. done.
  - destruct Hs as (p & Ho & Hv). rewrite Ho. simpl.
    eexists. split; [done|]. simpl. unfold new. simpl.
    rewrite Ho in Hv. simpl in Hv. by rewrite Hv.
  - destruct Hs as (p & Ho & Hv). rewrite Ho. simpl.
    eexists. split; [done|]. simpl. unfold new. simpl.
    rewrite Ho in Hv. simpl in Hv. by rewrite Hv.
  - destruct Hs as (p & d & Ho & Hflag). rewrite Ho in Hleaf |- *. simpl.
    specialize (Hleaf d eq_refl). unfold leaf_reads_back in Hleaf.
    eexists. split; [done|]. simpl.
    destruct (_isArrayOperation d) eqn:Hy; simpl; rewrite Hleaf; simpl;
      unfold new; simpl.
    + destruct (_isTextOperation d) eqn:Hx; [done|]. by rewrite Hy.
    + destruct Hflag as [Hx|Hx]; [|done]. by rewrite Hx.
  - destruct Hs as (p & Ho). rewrite Ho. simpl.
    eexists. split; [done|]. done.
Qed.

(** X4. The inverse of a well-formed operation is well formed, and its
    inverse is the operation again (for an update, when the diff is
    inverted back by the leaves). *)
Theorem invert_invert o :
  wf o ->
  (forall d, diff o = Some d -> leaf_involutive d) ->
  exists o', invert o = Ok o' /\ wf o' /\ invert o' = Ok o.
Proof.
  intros Hwf Hleaf. pose proof (wf_shape o Hwf) as Hs.
  unfold invert. unfold wf in Hwf.
  destruct (type o) eqn:Et.
  - subst o. exists (blank NOP). done.
  - rewrite Hwf. simpl. destruct Hs as (p & Ho & Hv).
    exists (set_type DELETE o). split; [done|].
    rewrite Ho. unfold wf, new. simpl. rewrite Hv. done.
  - rewrite Hwf. simpl. destruct Hs as (p & Ho & Hv).
    exists (set_type CREATE o). split; [done|].
    rewrite Ho. unfold wf, new. simpl. rewrite Hv. done.
  - rewrite Hwf. simpl. destruct Hs as (p & d & Ho & Hflag).
    rewrite Ho in Hleaf. specialize (Hleaf d eq_refl).
    destruct Hleaf as (op & op' & Hop & Hx & Hy & Hop' & Hback).
    unfold invert_reads in Hop, Hop'.
    assert (diff o = Some d) as Hd by (by rewrite Ho).
    rewrite Hd. simpl. rewrite Hop. simpl.
    eexists. split; [done|].
    assert (new (set_diff (leaf_invert op) o) = Ok (set_diff (leaf_invert op) o)) as Hnew.
    { rewrite Ho. unfold new. simpl. rewrite Hx, Hy.
      destruct (_isTextOperation d); [done|].
      destruct Hflag as [?|Hy']; [done|]. by rewrite Hy'. }
    split; [exact Hnew|].
    rewrite Hnew. simpl. rewrite Hop'. simpl. rewrite Hback.
    rewrite Ho. done.
  - rewrite Hwf. simpl. destruct Hs as (p & Ho).
    eexists. split; [done|]. rewrite Ho. done.
Qed.

(** X5. [clone] of a well-formed operation whose diff is cloned faithfully
    succeeds and gives the operation with [original] cleared and a [val]
    that is false in a condition dropped; the result is well formed, and it
    is the operation itself unless that is a set. *)
Theorem clone_wf o :
  wf o -> (forall d, diff o = Some d -> leaf_clone d = d) ->
  clone o = Ok (stripped o) /\ wf (stripped o) /\
  (type o <> SET -> stripped o = o).
Proof.
  intros Hwf Hleaf. unfold clone, stripped, cloneDeep, wf, new in *.
  destruct o as [t p v d pt og]. simpl in *.
  destruct t; simpl in *.
  - by injection Hwf as <- <- <- <- <-.
  - destruct p as [p|]; [|done]. destruct (truthy v) eqn:Hv; [|done].
    injection Hwf as <- <- <-. simpl. rewrite Hv. done.
  - destruct p as [p|]; [|done]. destruct (truthy v) eqn:Hv; [|done].
    injection Hwf as <- <- <-. simpl. rewrite Hv. done.
  - destruct p as [p|]; [|done]. destruct d as [d|]; [|done]. simpl.
    rewrite (Hleaf d eq_refl).
    destruct (_isTextOperation d) eqn:Hx.
    + injection Hwf as <- <- <-. simpl. rewrite ?Hx. done.
    + destruct (_isArrayOperation d) eqn:Hy; [|done].
      injection Hwf as <- <- <-. simpl. rewrite ?Hx, ?Hy. done.
  - destruct p as [p|]; [|done]. injection Hwf as <- <-. simpl.
    split; [done|]. split; done.
Qed.


Lemma operand_fields inpl o :
  type (operand inpl o) = type o /\ path (operand inpl o) = path o /\
  diff (operand inpl o) = diff o /\ propertyType (operand inpl o) = propertyType o.
Proof. by destruct inpl. Qed.

Lemma idleb_operand inpl o : idleb (operand inpl o) = idleb o.
Proof. by destruct inpl. Qed.

Lemma wf_operand inpl o :
  wf o -> (forall d, diff o = Some d -> leaf_clone d = d) -> wf (operand inpl o).
Proof.
  intros Hwf Hleaf. destruct inpl; [done|]. by apply clone_wf.
Qed.

(** [transform] on well-formed operands whose diffs are cloned faithfully:
    the conflict check, then the rules on the operands. *)
Lemma transform_wf a b (inpl nc : bool) :
  wf a -> wf b ->
  (forall d, diff a = Some d -> leaf_clone d = d) ->
  (forall d, diff b = Some d -> leaf_clone d = d) ->
  transform a b {| inplace := inpl; no_conflict := nc |}
  = if nc && hasConflict a b then Throw (Conflict a b)
    else if idleb a || idleb b then Ok (operand inpl a, operand inpl b)
    else if isEqual (path a) (path b) then
      match __transform__ (Z.lor (CODE (type a)) (CODE (type b))) with
      | Some rule => rule (operand inpl a) (operand inpl b)
      | None => Throw (Error "__transform__[...] is not a function")
      end
    else Ok (operand inpl a, operand inpl b).
Proof.
  intros Hwa Hwb Hla Hlb.
  destruct (clone_wf a Hwa Hla) as (Hca & Hwa' & _).
  destruct (clone_wf b Hwb Hlb) as (Hcb & Hwb' & _).
  unfold transform. simpl. destruct (nc && hasConflict a b); [done|].
  assert ((if negb inpl then a' ← clone a; b' ← clone b; Ok (a', b')
           else Ok (a, b)) = Ok (operand inpl a, operand inpl b)) as ->.
  { destruct inpl; simpl; [done|]. by rewrite Hca, Hcb. }
  simpl.
  rewrite (isNOP_wf (operand inpl a)) by (by apply wf_operand). simpl.
  rewrite idleb_operand. destruct (idleb a); simpl; [done|].
  rewrite (isNOP_wf (operand inpl b)) by (by apply wf_operand). simpl.
  rewrite idleb_operand. destruct (idleb b); simpl; [done|].
  destruct (operand_fields inpl a) as (-> & -> & _).
  destruct (operand_fields inpl b) as (-> & -> & _). done.
Qed.

(** X6. Against a NOP nothing is transformed and no conflict is raised,
    whatever the options: the pair comes back, in place as it is and
    otherwise as its clones. *)
Theorem transform_NOP_identity a (inpl nc : bool) :
  wf a -> (forall d, diff a = Some d -> leaf_clone d = d) ->
  transform a (blank NOP) {| inplace := inpl; no_conflict := nc |}
  = Ok (if inpl then a else stripped a, blank NOP) /\
  transform (blank NOP) a {| inplace := inpl; no_conflict := nc |}
  = Ok (blank NOP, if inpl then a else stripped a).
Proof.
  intros Hwa Hla.
  assert (wf (blank NOP)) as Hn by done.
  split.
  - rewrite transform_wf by done.
    assert (hasConflict a (blank NOP) = false) as ->.
    { unfold hasConflict. simpl. by rewrite orb_true_r. }
    rewrite andb_false_r.
    change (idleb (blank NOP)) with true. rewrite orb_true_r. by destruct inpl.
  - rewrite transform_wf by done.
    change (hasConflict (blank NOP) a) with false. rewrite andb_false_r.
    change (idleb (blank NOP)) with true. by destruct inpl.
Qed.

(** X7. Operations on different paths are not transformed and are no
    conflict, whatever the options. *)
Theorem transform_other_path a b (inpl nc : bool) :
  wf a -> wf b ->
  (forall d, diff a = Some d -> leaf_clone d = d) ->
  (forall d, diff b = Some d -> leaf_clone d = d) ->
  path a <> path b ->
  transform a b {| inplace := inpl; no_conflict := nc |}
  = Ok (if inpl then a else stripped a, if inpl then b else stripped b).
Proof.
  intros Hwa Hwb Hla Hlb Hp. rewrite transform_wf by done.
  assert (isEqual (path a) (path b) = false) as Hne
    by (by apply bool_decide_eq_false_2).
  assert (hasConflict a b = false) as ->.
  { unfold hasConflict. rewrite Hne. by destruct (_ || _). }
  rewrite andb_false_r, Hne. by destruct (idleb a || idleb b).
Qed.

(** X8. On one path, a create against anything and an update against a
    set throw an [Error] (never a [Conflict]) when the conflict check is
    off. *)
Theorem transform_illegal_pair a b (inpl : bool) :
  wf a -> wf b ->
  (forall d, diff a = Some d -> leaf_clone d = d) ->
  (forall d, diff b = Some d -> leaf_clone d = d) ->
  path a = path b -> idleb a = false -> idleb b = false ->
  illegal (type a) (type b) = true ->
  exists msg,
    transform a b {| inplace := inpl; no_conflict := false |} = Throw (Error msg).
Proof.
  intros Hwa Hwb Hla Hlb Hp Hia Hib Hill. rewrite transform_wf by done.
  simpl. rewrite Hia, Hib, Hp, isEqual_refl. simpl.
  destruct (type a), (type b); try discriminate Hill; cbn; eauto.
Qed.

(** X9. Deletes and sets are always transformed without an error, and on
    one path the first operand comes back as a NOP. *)
Theorem transform_deletes_and_sets a b (inpl : bool) :
  wf a -> wf b ->
  type a = DELETE \/ type a = SET -> type b = DELETE \/ type b = SET ->
  exists a' b',
    transform a b {| inplace := inpl; no_conflict := false |} = Ok (a', b') /\
    (path a = path b -> type a' = NOP).
Proof.
  intros Hwa Hwb Ha Hb.
  assert (diff a = None) as Hda.
  { pose proof (wf_shape a Hwa) as Hs.
    destruct Ha as [Ha|Ha]; rewrite Ha in Hs; destruct Hs as (p & -> & _) || destruct Hs as (p & ->); done. }
  assert (diff b = None) as Hdb.
  { pose proof (wf_shape b Hwb) as Hs.
    destruct Hb as [Hb|Hb]; rewrite Hb in Hs; destruct Hs as (p & -> & _) || destruct Hs as (p & ->); done. }
  rewrite transform_wf by (done || (intros d; rewrite ?Hda, ?Hdb; done)).
  simpl.
  assert (idleb a = false) as -> by (unfold idleb; destruct Ha as [-> | ->]; done).
  assert (idleb b = false) as -> by (unfold idleb; destruct Hb as [-> | ->]; done).
  simpl. unfold isEqual. case_bool_decide as Hp.
  - destruct (operand_fields inpl a) as (Hta & _).
    destruct (operand_fields inpl b) as (Htb & _).
    destruct Ha as [Ha|Ha], Hb as [Hb|Hb]; rewrite Ha, Hb;
      match goal with
      | |- context [__transform__ ?i] =>
        let r := eval cbv in i in change i with r
      end; unfold __transform__; simpl.
    + eexists _, _. split; [reflexivity|]. done.
    + rewrite (proj1 (delete_set_rule (operand inpl a) (operand inpl b)
                        ltac:(congruence) ltac:(congruence))).
      eexists _, _. split; [reflexivity|]. done.
    + rewrite (proj2 (delete_set_rule (operand inpl b) (operand inpl a)
                        ltac:(congruence) ltac:(congruence))).
      eexists _, _. split; [reflexivity|]. done.
    + eexists _, _. split; [reflexivity|]. done.
  - eexists _, _. split; [done|]. done.
Qed.


(** X10. Rule D-U.  The update loses against the delete: with the delete
    first the delete becomes a NOP and the update a create of the updated
    value; with the update first the update becomes a NOP and the delete
    holds the updated value.  [transform] runs this rule on such a pair of
    one path when the diff is no NOP. *)
Theorem rule_delete_update a b d op v :
  type a = DELETE -> type b = UPDATE -> diff b = Some d ->
  (if bool_decide (propertyType b = Some PString)
   then TextOperation_fromJSON d else ArrayOperation_fromJSON d) = Some op ->
  leaf_apply op (val a) = Some v ->
  transform_delete_update a b false
  = Ok (set_type NOP a, set_val v (set_type CREATE b)) /\
  transform_delete_update b a false
  = Ok (set_type NOP b, set_val v a) /\
  (path a = path b -> leaf_isNOP d = false ->
   transform a b {| inplace := true; no_conflict := false |}
   = transform_delete_update a b false /\
   transform b a {| inplace := true; no_conflict := false |}
   = transform_delete_update b a false).
Proof.
  intros Ha Hb Hd Hop Hv.
  split; [|split].
  - unfold transform_delete_update, delete_update_body.
    rewrite bool_decide_eq_false_2 by (rewrite Ha; auto).
    rewrite Hd. simpl. rewrite Hop. simpl. rewrite Hv. done.
  - unfold transform_delete_update, delete_update_body.
    rewrite bool_decide_eq_true_2 by (rewrite Hb; done).
    rewrite bool_decide_eq_false_2 by (rewrite Ha; auto).
    rewrite Hd. simpl. rewrite Hop. simpl. rewrite Hv. done.
  - intros Hp Hn. unfold transform, isNOP. simpl.
    rewrite Ha, Hb, Hd. simpl. rewrite Hn, Hp, isEqual_refl. done.
Qed.

(** X11. Rule S-S.  Of two sets of one path the first becomes a NOP and the
    second holds the [val] of the first as [original]; with default options
    this is said of the clones. *)
Theorem transform_set_set_wins a b :
  wf a -> wf b -> type a = SET -> type b = SET -> path a = path b ->
  transform a b {| inplace := true; no_conflict := false |}
  = Ok (set_type NOP a, set_original (val a) b) /\
  transform a b default_options
  = Ok (set_type NOP (stripped a), set_original (val (stripped a)) (stripped b)).
Proof.
  intros Hwa Hwb Ha Hb Hp.
  assert (diff a = None /\ diff b = None) as [Hda Hdb].
  { pose proof (wf_shape a Hwa) as Hsa. pose proof (wf_shape b Hwb) as Hsb.
    rewrite Ha in Hsa. rewrite Hb in Hsb.
    destruct Hsa as (p & ->), Hsb as (q & ->). done. }
  unfold default_options.
  rewrite !transform_wf by (done || (intros d; rewrite ?Hda, ?Hdb; done)).
  simpl. unfold idleb. rewrite Ha, Hb, Hp, isEqual_refl. simpl. done.
Qed.

(** X12. Rule D-D.  Two deletes of one path both become NOPs: [isNOP] holds
    of them and they apply as the identity. *)
Theorem transform_delete_delete_both_NOP a b (inpl : bool) s :
  wf a -> wf b -> type a = DELETE -> type b = DELETE -> path a = path b ->
  exists a' b',
    transform a b {| inplace := inpl; no_conflict := false |} = Ok (a', b') /\
    a' = set_type NOP a /\ b' = set_type NOP b /\
    isNOP a' = Ok true /\ isNOP b' = Ok true /\
    apply a' s = Ok s /\ apply b' s = Ok s.
Proof.
  intros Hwa Hwb Ha Hb Hp.
  assert (diff a = None /\ diff b = None) as [Hda Hdb].
  { pose proof (wf_shape a Hwa) as Hsa. pose proof (wf_shape b Hwb) as Hsb.
    rewrite Ha in Hsa. rewrite Hb in Hsb.
    destruct Hsa as (p & -> & _), Hsb as (q & -> & _). done. }
  destruct (clone_wf a Hwa) as (_ & _ & Hsa); [intros d; by rewrite Hda|].
  destruct (clone_wf b Hwb) as (_ & _ & Hsb); [intros d; by rewrite Hdb|].
  rewrite transform_wf by (done || (intros d; rewrite ?Hda, ?Hdb; done)).
  simpl. unfold idleb. rewrite Ha, Hb, Hp, isEqual_refl. simpl.
  unfold operand. rewrite Hsa, Hsb by congruence.
  exists (set_type NOP a), (set_type NOP b).
  split; [by destruct inpl|]. done.
Qed.

(** X13. The table of rules has an entry for every pair of tags other than
    NOP, and the bitwise or of two such codes names the unordered pair. *)
Theorem CODE_names_the_pair (t u t' u' : OpType) :
  t <> NOP -> u <> NOP ->
  is_Some (__transform__ (Z.lor (CODE t) (CODE u))) /\
  (t' <> NOP -> u' <> NOP ->
   Z.lor (CODE t) (CODE u) = Z.lor (CODE t') (CODE u') ->
   (t = t' /\ u = u') \/ (t = u' /\ u = t')).
Proof.
  intros Ht Hu. split; [by apply dispatch_complete|].
  intros Ht' Hu'.
  destruct t, u; try done; destruct t', u'; try done;
    vm_compute; intros H; try discriminate H; auto.
Qed.

Lemma clone_keeps_path o o1 :
  clone o = Ok o1 -> type o <> NOP -> path o1 = path o /\ type o1 = type o.
Proof.
  unfold clone, new. destruct o as [t p v d pt og]. simpl.
  intros H Ht. destruct t; try done;
    (destruct p as [p|]; [|done]); simpl in H.
  - destruct (truthy (if truthy v then cloneDeep v else JUndefined)); [|done].
    by injection H as <-.
  - destruct (truthy (if truthy v then cloneDeep v else JUndefined)); [|done].
    by injection H as <-.
  - destruct d as [d|]; [|done]. simpl in H.
    destruct (_isTextOperation (leaf_clone d)); [by injection H as <-|].
    destruct (_isArrayOperation (leaf_clone d)); [by injection H as <-|done].
  - by injection H as <-.
Qed.

Lemma rule_keeps_paths i rule a b a' b' :
  __transform__ i = Some rule -> rule a b = Ok (a', b') ->
  path a' = path a /\ path b' = path b.
Proof.
  unfold __transform__. intros H.
  repeat match type of H with
         | (if ?c then _ else _) = _ => destruct c
         end; simplify_eq;
    unfold transform_delete_delete, transform_delete_create,
      transform_delete_update, transform_create_create,
      transform_create_update, transform_update_update,
      transform_create_set, transform_delete_set, transform_update_set,
      transform_set_set, delete_update_body, delete_set_body;
    intros Hr;
    repeat match type of Hr with
           | context [bool_decide ?P] => destruct (bool_decide P)
           | context [lift _ ?m] => destruct m as [?|]; simpl in Hr
           | context [match ?m with (x, y) => _ end] => destruct m
           end;
    simpl in Hr; try discriminate Hr; by injection Hr as <- <-.
Qed.

(** X14. [transform] never changes the path of an operand. *)
Theorem transform_keeps_paths a b options a' b' :
  transform a b options = Ok (a', b') ->
  (type a <> NOP -> path a' = path a) /\ (type b <> NOP -> path b' = path b).
Proof.
  intros Htr.
  destruct (transform_Ok_inv _ _ _ _ Htr) as (a1 & b1 & Hab & Hcore).
  assert ((type a <> NOP -> path a1 = path a) /\
          (type b <> NOP -> path b1 = path b)) as [Hpa Hpb].
  { destruct (inplace options).
    - destruct Hab as [-> ->]. done.
    - destruct Hab as [Hca Hcb]. split; intros Ht.
      + by destruct (clone_keeps_path _ _ Hca Ht).
      + by destruct (clone_keeps_path _ _ Hcb Ht). }
  assert (path a' = path a1 /\ path b' = path b1) as [-> ->]; [|done].
  revert Hcore. unfold transform. simpl.
  destruct (isNOP a1) as [na|]; [|done]. simpl.
  destruct (if na then Ok true else isNOP b1) as [nb|]; [|done]. simpl.
  destruct nb; [by intros [= <- <-]|].
  destruct (isEqual _ _); [|by intros [= <- <-]].
  destruct (__transform__ _) as [rule|] eqn:Hrule; [|done].
  by apply rule_keeps_paths with (i := Z.lor (CODE (type a1)) (CODE (type b1))).
Qed.

End WithLeaves.
End ObjectOperationMore.

(** * More about the hub *)

Module HubMore.

Import Hub HubTerms HubFacts.

Lemma prefix_String c pat s :
  Ascii.eqb c "-"%char = false -> String.prefix (String "-"%char pat) (String c s) = false.
Proof.
  intros Hc. cbn [String.prefix].
  destruct (ascii_dec "-"%char c) as [<-|Hne]; [|reflexivity].
  by rewrite Ascii.eqb_refl in Hc.
Qed.

(** X15. A message sent through the socket of [name-server] is addressed to
    [name], when [name] has no ['-'] in it. *)
Theorem send_addresses_the_client (name : string) :
  dashless name = true ->
  replace (name ++ "-server") "-server" "" = name.
Proof.
  induction name as [|c name IH]; intros Hd.
  - reflexivity.
  - simpl in Hd. apply andb_true_iff in Hd as [Hc Hd].
    apply negb_true_iff in Hc.
    change (String c name ++ "-server")%string with (String c (name ++ "-server")).
    cbn [replace]. rewrite (prefix_String c "server" _ Hc).
    by rewrite IH.
Qed.

Section WithDocument.

Context {Doc Change : Type}.
Variable doc_apply : Doc -> Change -> option Doc.
Variable change_clone : Change -> Change.
Variable transformInplace : Change -> Change -> option (Change * Change).

#[local] Abbreviation StubHub := (@StubHub Doc Change).
#[local] Abbreviation commit := (commit doc_apply change_clone transformInplace).
#[local] Abbreviation _onMessage := (_onMessage doc_apply change_clone transformInplace).
#[local] Abbreviation later := (later doc_apply change_clone transformInplace).
#[local] Abbreviation counted := (@counted Doc Change).
#[local] Abbreviation apply_all := (apply_all doc_apply).

Implicit Types h : StubHub.

(** X16. [splice(start)] splits the array: what is kept followed by what is
    removed is the array as it was; [start] within the array is the number
    of elements kept, [start] at or beyond the end removes nothing, and a
    negative [start] removes that many elements from the end (all of them
    if there are fewer). *)
Theorem splice_splits {A} (l : list A) (start : Z) :
  (splice l start).2 ++ (splice l start).1 = l /\
  ((0 <= start <= Z.of_nat (length l))%Z ->
   Z.of_nat (length (splice l start).2) = start) /\
  ((Z.of_nat (length l) <= start)%Z -> (splice l start).1 = []) /\
  ((start < 0)%Z ->
   Z.of_nat (length (splice l start).1) = Z.min (- start) (Z.of_nat (length l))).
Proof.
  unfold splice. simpl. split; [by rewrite take_drop|].
  split; [|split].
  - intros H. destruct (Z.ltb_spec start 0); [lia|].
    rewrite length_take. lia.
  - intros H. destruct (Z.ltb_spec start 0); [lia|].
    apply drop_ge. lia.
  - intros H. destruct (Z.ltb_spec start 0); [|lia].
    rewrite length_drop. lia.
Qed.

(** X17. [getChangesSinceVersion(version)], for a version between 1 and that
    of the hub, returns the changes committed since that version, and cuts
    the log down to the changes before it: the version counts the log
    afterwards only if nothing was returned. *)
Theorem getChangesSinceVersion_truncates h (version : Z) :
  counted h -> (1 <= version <= doc_version h)%Z ->
  let '(missed, h') := getChangesSinceVersion h version in
  missed = drop (Z.to_nat (version - 1)) (changes h) /\
  changes h' = take (Z.to_nat (version - 1)) (changes h) /\
  Z.of_nat (length missed) = (doc_version h - version)%Z /\
  doc_version h' = doc_version h /\
  (counted h' <-> version = doc_version h).
Proof.
  unfold counted, getChangesSinceVersion, splice. intros Hc Hv.
  destruct (Z.ltb_spec (version - 1) 0); [lia|].
  rewrite Z.min_l by lia. simpl.
  split; [done|]. split; [done|].
  rewrite length_drop, length_take. split; [lia|]. split; [done|]. lia.
Qed.

Lemma apply_all_app doc doc' changes change :
  apply_all doc changes = Some doc' ->
  apply_all doc (changes ++ [change]) = doc_apply doc' change.
Proof.
  revert doc. induction changes as [|c cs IH]; intros doc; simpl.
  - intros [= <-]. by destruct (doc_apply doc change).
  - destruct (doc_apply doc c) as [doc1|]; simpl; [|done]. apply IH.
Qed.

Lemma commit_appends h ws change version h' :
  counted h -> commit h ws change version = Some h' ->
  exists c,
    doc_apply (doc h) c = Some (doc h') /\ changes h' = changes h ++ [c] /\
    c = (if (doc_version h =? version)%Z then change else change_clone change).
Proof.
  unfold counted, commit. intros Hc.
  destruct (doc_version h =? version)%Z.
  - unfold _applyChange. destruct (doc_apply (doc h) change) as [doc'|] eqn:Hd; [|done].
    simpl. rewrite send_all. intros [= <-]. simpl. eauto.
  - unfold getChangesSinceVersion.
    replace (doc_version h - 1)%Z with (Z.of_nat (length (changes h))) by lia.
    rewrite splice_at_end. simpl. unfold _applyChange. simpl.
    destruct (doc_apply (doc h) (change_clone change)) as [doc'|] eqn:Hd; [|done].
    simpl. rewrite send_all. intros [= <-]. simpl. eauto.
Qed.

(** X18. The document of the hub is the document it was built on with the
    changes of the log applied in order. *)
Theorem hub_document_is_the_log_applied doc0 messageQueue0 h :
  later (Hub.new doc0 messageQueue0) h ->
  apply_all doc0 (changes h) = Some (doc h).
Proof.
  intros Hl.
  assert (counted h /\ apply_all doc0 (changes h) = Some (doc h)) as [_ H]; [|done].
  remember (Hub.new doc0 messageQueue0) as h0 eqn:Hh0.
  induction Hl as [h|h h1 ws data h' _ IH Hstep|h h1 clients' messageQueue' _ IH].
  - subst h. done.
  - destruct (IH Hh0) as [Hc Ha].
    destruct (message_counted _ _ _ _ _ _ _ Hc Hstep) as (Hc' & _ & _).
    split; [done|].
    destruct data as [documentId version|change version|documentId]; simpl in Hstep.
    + by injection Hstep as <-.
    + destruct (commit_appends _ _ _ _ _ Hc Hstep) as (c & Hd & Hch & _).
      rewrite Hch. rewrite (apply_all_app _ _ _ c Ha). done.
    + done.
  - destruct (IH Hh0) as [Hc Ha]. done.
Qed.

(** X19. A commit that is handled sends one [commitDone] to the committing
    socket and one and the same [update] to each of the other clients, and
    nothing else; the clients stay as they are. *)
Theorem commit_messages h ws change version h' :
  commit h ws change version = Some h' ->
  exists done update,
    let others := filter (fun client => __id__ client <> __id__ ws) (clients h) in
    (messageQueue h'
     = messageQueue h ++ envelope ws done :: map (fun socket => envelope socket update) others
     \/ messageQueue h'
        = messageQueue h ++ map (fun socket => envelope socket update) others
          ++ [envelope ws done]) /\
    head done = Some (IStr "commitDone") /\ head update = Some (IStr "update") /\
    clients h' = clients h /\
    Forall (fun socket => __id__ socket <> __id__ ws) others.
Proof.
  unfold commit. intros H.
  assert (Forall (fun socket => __id__ socket <> __id__ ws)
            (filter (fun client => __id__ client <> __id__ ws) (clients h))) as Hall.
  { apply Forall_forall. intros socket Hin. by apply list_elem_of_filter in Hin as [? _]. }
  destruct (doc_version h =? version)%Z.
  - unfold _applyChange in H. destruct (doc_apply (doc h) change) as [doc'|]; [|done].
    simpl in H. rewrite send_all in H. injection H as <-. simpl.
    eexists _, _. split; [left; by rewrite <- app_assoc|]. done.
  - destruct (getChangesSinceVersion h (doc_version h)) as [missed h1] eqn:Hg.
    unfold getChangesSinceVersion in Hg.
    destruct (splice (changes h) (doc_version h - 1)) as [removed kept].
    injection Hg as <- <-.
    destruct (transform_all _ _ _) as [[changes' newChange]|]; [|done]. simpl in H.
    unfold _applyChange in H. simpl in H.
    destruct (doc_apply (doc h) newChange) as [doc'|]; [|done].
    simpl in H. rewrite send_all in H. injection H as <-. simpl.
    eexists _, _. split; [right; by rewrite <- app_assoc|]. done.
Qed.

(** X24. In a state the hub reaches, a commit at any version other than
    that of the hub takes nothing from the log: the clone of the change is
    applied and appended as it came, the other clients are sent
    [['update', newVersion, change]], and the committing socket is sent
    [['commitDone']] alone. *)
Theorem commit_at_another_version h ws change version doc' :
  reachable doc_apply change_clone transformInplace h ->
  doc_version h <> version ->
  doc_apply (doc h) (change_clone change) = Some doc' ->
  commit h ws change version
  = Some (mkHub doc' (doc_id h) (doc_version h + 1)
            (changes h ++ [change_clone change]) (clients h)
            ((messageQueue h
              ++ map (fun socket =>
                        envelope socket
                          [IStr "update"; INum (doc_version h + 1);
                           IChange (change_clone change)])
                     (filter (fun client => __id__ client <> __id__ ws) (clients h)))
             ++ [envelope ws [IStr "commitDone"]])).
Proof. apply commit_other_path. Qed.

End WithDocument.

End HubMore.

(** * Container annotations *)

Module ContainerAnnotationFacts.

Import ContainerAnnotation.

Implicit Types this : ContainerAnnotation.

Lemma omap_lookup_middle {A} (pre mid post : list A) :
  omap (fun i => (pre ++ mid ++ post) !! i) (seq (length pre) (length mid)) = mid.
Proof.
  revert pre. induction mid as [|x mid IH]; intros pre; [done|].
  simpl. rewrite lookup_app_r by lia. rewrite Nat.sub_diag. simpl.
  f_equal. specialize (IH (pre ++ [x])).
  rewrite length_app in IH. simpl in IH.
  rewrite <- (assoc_L (++) pre [x]) in IH. simpl in IH.
  replace (S (length pre)) with (length pre + 1) by lia. exact IH.
Qed.

Lemma inner_paths_middle (p0 pl : Path) (mid : list Path) :
  inner_paths (p0 :: mid ++ [pl]) = mid.
Proof.
  unfold inner_paths. simpl. rewrite length_app. simpl.
  replace (length mid + 1 - 1) with (length mid) by lia.
  exact (omap_lookup_middle [p0] mid [pl]).
Qed.

Lemma getFragments_several this (p0 pl : Path) (mid : list Path) :
  getFragments this (p0 :: mid ++ [pl])
  = mkFragment p0 "start" :: mkFragment pl "end"
      :: map (fun p => mkFragment p "inner") mid.
Proof.
  unfold getFragments.
  assert (last (p0 :: mid ++ [pl]) = Some pl) as Hl.
  { change (p0 :: mid ++ [pl]) with ((p0 :: mid) ++ [pl]). apply last_snoc. }
  rewrite Hl, inner_paths_middle.
  destruct mid; done.
Qed.

Lemma several_paths (paths : list Path) :
  2 <= length paths -> exists p0 mid pl, paths = p0 :: mid ++ [pl].
Proof.
  destruct paths as [|p0 rest]; simpl; [lia|]. intros Hl.
  induction rest as [|pl mid _] using rev_ind; [simpl in Hl; lia|]. eauto.
Qed.

(** X20. [getFragments] makes one fragment for each path of the range: as
    many fragments as paths, and their paths are the paths of the range up
    to order. *)
Theorem getFragments_one_per_path this (paths : list Path) :
  length (getFragments this paths) = length paths /\
  frag_path <$> getFragments this paths ≡ₚ paths.
Proof.
  destruct paths as [|p0 [|p1 rest]]; [done|done|].
  destruct (several_paths (p0 :: p1 :: rest)) as (q0 & mid & pl & Heq);
    [simpl; lia|].
  rewrite Heq, getFragments_several. simpl.
  rewrite length_map, length_app. simpl. split; [lia|].
  rewrite <- list_fmap_compose.
  assert (frag_path ∘ (fun p => mkFragment p "inner") <$> mid = mid) as ->.
  { clear Heq. induction mid as [|m mid' IH]; [done|].
    rewrite fmap_cons. f_equal. exact IH. }
  constructor. apply Permutation_cons_append.
Qed.


(** X22. [updateRange] throws exactly on a selection that is no container
    selection; it sets nothing exactly when the selection has the range of
    the annotation; and it makes at most four calls of [set], each on a
    property of this annotation. *)
Theorem updateRange_sets_what_differs this (sel : Selection) :
  (updateRange this sel = None <-> isContainerSelection sel = false) /\
  (updateRange this sel = Some [] <->
   isContainerSelection sel = true /\
   startPath this = coor_path (sel_start sel) /\
   startOffset this = coor_offset (sel_start sel) /\
   endPath this = coor_path (sel_end sel) /\
   endOffset this = coor_offset (sel_end sel)) /\
  (forall sets, updateRange this sel = Some sets ->
     length sets <= 4 /\
     Forall (fun x => exists property, set_path x = [id this; property]) sets).
Proof.
  unfold updateRange.
  destruct (isContainerSelection sel); simpl.
  - split; [split; done|].
    destruct (decide (startPath this = coor_path (sel_start sel))) as [H1|H1],
             (Z.eqb_spec (startOffset this) (coor_offset (sel_start sel))) as [H2|H2],
             (decide (endPath this = coor_path (sel_end sel))) as [H3|H3],
             (Z.eqb_spec (endOffset this) (coor_offset (sel_end sel))) as [H4|H4];
      rewrite ?(bool_decide_eq_true_2 _ H1), ?(bool_decide_eq_false_2 _ H1),
        ?(bool_decide_eq_true_2 _ H3), ?(bool_decide_eq_false_2 _ H3); simpl;
      (split; [split; [intros H; try discriminate H; done
                      | intros (_ & ? & ? & ? & ?); done]|]);
      intros sets [= <-]; (split; [simpl; lia|]);
      repeat constructor; eauto.
  - split; [done|]. split; [split; [done|intros [H _]; done]|]. done.
Qed.

(** X23. [setHighlighted] leaves the flag at the value given; it emits
    nothing when the flag has that value already, so a second call with the
    same value emits nothing; otherwise it emits once on the annotation and
    once on each fragment. *)
Theorem setHighlighted_once this (value : option bool) :
  let '(this', emitted) := setHighlighted this value in
  highlighted this' = value /\
  setHighlighted this' value = (this', []) /\
  (highlighted this = value -> this' = this /\ emitted = []) /\
  (highlighted this <> value ->
   emitted = OnAnnotation value
             :: map (fun frag => OnFragment frag value) (fragments this)).
Proof.
  unfold setHighlighted.
  destruct (decide (highlighted this = value)) as [H|H].
  - rewrite (bool_decide_eq_true_2 _ H). simpl.
    rewrite (bool_decide_eq_true_2 _ H). simpl. done.
  - rewrite (bool_decide_eq_false_2 _ H). simpl.
    rewrite bool_decide_eq_true_2 by done. simpl. done.
Qed.

End ContainerAnnotationFacts.

(** * More runs *)

Module MoreRuns.

Import ObjectOperation ObjectOperationTerms ObjectOperationFacts ObjectOperationMore.
Import Examples.

#[local] Existing Instance Leaves.leaves.

Lemma new_builds_wf_witness : wf create_two.
Proof.
  apply (new_builds_wf (mkOp CREATE (Some x) (JNum 2) None (Some PArray) (JStr "old"))).
  reflexivity.
Defined.

Lemma fromJSON_toJSON_witness :
  exists data, toJSON bang = Ok data /\ fromJSON data = Ok bang.
Proof.
  apply fromJSON_toJSON.
  - reflexivity.
  - intros d [= <-]. reflexivity.
Defined.

Lemma invert_invert_witness :
  exists o', invert bang = Ok o' /\ wf o' /\ invert o' = Ok bang.
Proof.
  apply invert_invert.
  - reflexivity.
  - intros d [= <-]. exists (Leaves.TInsert 5 "!"), (Leaves.TDelete 5 "!").
    repeat split.
Defined.

Lemma clone_wf_witness :
  clone set_zero = Ok (set x JUndefined JUndefined).
Proof.
  destruct (clone_wf set_zero) as (H & _).
  - reflexivity.
  - intros d H. discriminate H.
  - exact H.
Defined.

Lemma transform_NOP_identity_witness :
  transform set_new (blank NOP) default_options
  = Ok (set x JUndefined (JStr "new"), blank NOP).
Proof.
  destruct (transform_NOP_identity set_new false false) as (H & _).
  - reflexivity.
  - intros d H. discriminate H.
  - exact H.
Defined.

Lemma transform_other_path_witness :
  transform bang append_d {| inplace := false; no_conflict := true |}
  = Ok (bang, append_d).
Proof.
  apply (transform_other_path bang append_d false true).
  - reflexivity.
  - reflexivity.
  - intros d [= <-]. reflexivity.
  - intros d [= <-]. reflexivity.
  - discriminate.
Defined.

Lemma transform_illegal_pair_witness :
  exists msg, transform create_two set_new default_options = Throw (Error msg).
Proof.
  apply (transform_illegal_pair create_two set_new false).
  - reflexivity.
  - reflexivity.
  - intros d H. discriminate H.
  - intros d H. discriminate H.
  - reflexivity.
  - reflexivity.
  - reflexivity.
  - reflexivity.
Defined.

Lemma transform_deletes_and_sets_witness :
  exists a' b',
    transform set_new delete_old default_options = Ok (a', b') /\
    (path set_new = path delete_old -> type a' = NOP).
Proof.
  apply (transform_deletes_and_sets set_new delete_old false).
  - reflexivity.
  - reflexivity.
  - right. reflexivity.
  - left. reflexivity.
Defined.

Lemma rule_delete_update_witness :
  transform_delete_update (delete body (JStr "abc")) append_d false
  = Ok (set_type NOP (delete body (JStr "abc")),
        set_val (JStr "abcd") (set_type CREATE append_d)) /\
  transform_delete_update append_d (delete body (JStr "abc")) false
  = Ok (set_type NOP append_d, delete body (JStr "abcd")).
Proof.
  destruct (rule_delete_update (delete body (JStr "abc")) append_d
              (Leaves.TInsert 3 "d") (Leaves.TInsert 3 "d") (JStr "abcd")
              eq_refl eq_refl eq_refl eq_refl eq_refl)
    as (H1 & H2 & _).
  split; [exact H1 | exact H2].
Defined.

Lemma transform_set_set_wins_witness :
  transform set_new set_zero {| inplace := true; no_conflict := false |}
  = Ok (set_type NOP set_new, set x (JStr "new") (JNum 0)).
Proof.
  destruct (transform_set_set_wins set_new set_zero
              eq_refl eq_refl eq_refl eq_refl eq_refl) as (H & _).
  exact H.
Defined.

Lemma transform_delete_delete_both_NOP_witness :
  exists a' b',
    transform delete_old delete_old default_options = Ok (a', b') /\
    a' = set_type NOP delete_old /\ b' = set_type NOP delete_old /\
    isNOP a' = Ok true /\ isNOP b' = Ok true /\
    apply a' one = Ok one /\ apply b' one = Ok one.
Proof.
  apply (transform_delete_delete_both_NOP delete_old delete_old false one);
    reflexivity.
Defined.

Lemma CODE_names_the_pair_witness :
  is_Some (__transform__ (Z.lor (CODE DELETE) (CODE SET))).
Proof.
  destruct (CODE_names_the_pair DELETE SET SET DELETE) as (H & _).
  - discriminate.
  - discriminate.
  - exact H.
Defined.

Lemma transform_keeps_paths_witness :
  path (text_update title (Leaves.TInsert 6 "!")) = path bang.
Proof.
  destruct (transform_keeps_paths bang lead default_options
              (text_update title (Leaves.TInsert 6 "!")) lead) as (H & _).
  - reflexivity.
  - apply H. discriminate.
Defined.

End MoreRuns.

Module MoreHubRuns.

Import Hub HubTerms HubExamples HubFacts HubMore.

Lemma send_addresses_the_client_witness :
  msg_to (envelope alice ([] : list (@Item string))) = "alice"%string.
Proof.
  exact (send_addresses_the_client "alice" eq_refl).
Defined.

Lemma getChangesSinceVersion_truncates_witness :
  let '(missed, h') := getChangesSinceVersion hub2 1 in
  missed = drop (Z.to_nat (1 - 1)) (changes hub2) /\
  changes h' = take (Z.to_nat (1 - 1)) (changes hub2) /\
  Z.of_nat (length missed) = (doc_version hub2 - 1)%Z /\
  doc_version h' = doc_version hub2 /\
  (counted h' <-> 1%Z = doc_version hub2).
Proof.
  apply (getChangesSinceVersion_truncates hub2 1).
  - reflexivity.
  - split; discriminate.
Defined.

Lemma later_hub2 :
  later doc_apply change_clone transformInplace (Hub.new [] []) hub2.
Proof.
  pose proof (later_transport doc_apply change_clone transformInplace
                _ _ [alice; bob] [] (later_now _ _ _ (Hub.new [] []))) as H1.
  assert (exists h, _onMessage doc_apply change_clone transformInplace
                      hub1 bob (MsgCommit "c1"%string 1) = Some h /\
                    doc h = ["c1"%string] /\ doc_id h = "doc-15"%string /\
                    doc_version h = 2%Z /\
                    changes h = ["c1"%string]) as (h & Hh & Hd & Hi & Hv & Hc).
  { eexists. split; [reflexivity|]. repeat split. }
  pose proof (later_message _ _ _ _ _ _ _ _ H1 Hh) as H2.
  apply (later_transport _ _ _ _ _ [alice; bob] []) in H2.
  rewrite Hd, Hi, Hv, Hc in H2. exact H2.
Qed.

Lemma hub_document_is_the_log_applied_witness :
  apply_all doc_apply [] (changes hub2) = Some (doc hub2).
Proof.
  exact (hub_document_is_the_log_applied doc_apply change_clone transformInplace
           [] [] hub2 later_hub2).
Defined.

Lemma commit_messages_witness :
  exists h' done update,
    commit hub1 alice "c1"%string 1 = Some h' /\
    (messageQueue h' = [envelope alice done; envelope bob update]
     \/ messageQueue h' = [envelope bob update; envelope alice done]).
Proof.
  assert (exists h', commit hub1 alice "c1"%string 1 = Some h') as [h' Hc]
    by (eexists; reflexivity).
  destruct (commit_messages doc_apply change_clone transformInplace
              hub1 alice "c1"%string 1 h' Hc) as (done & update & H & _).
  exists h', done, update. split; [exact Hc|]. exact H.
Defined.

Lemma commit_at_another_version_witness :
  commit hub2 alice "c2"%string 1
  = Some (mkHub ["c1"; "c2"]%string "doc-15" 3 ["c1"; "c2"]%string [alice; bob]
            [envelope bob [IStr "update"; INum 3; IChange "c2"%string];
             envelope alice [IStr "commitDone"]]).
Proof.
  apply (commit_at_another_version doc_apply change_clone transformInplace
           hub2 alice "c2"%string 1 ["c1"; "c2"]%string).
  - exact HubRuns.hub2_reachable.
  - discriminate.
  - reflexivity.
Defined.

End MoreHubRuns.
